(** * charlesbases/store: the key/value store contract and its two adapters

    A shallow embedding of [options.go], of the redis adapter ([rkv]) and of
    the mysql adapter ([ormStore]), together with small executable models of
    the two engines the adapters talk to, and the properties of the record
    lifecycle (expiry resolution, key matching, pagination, namespaces,
    errors) that hold of that code. *)

From Stdlib Require Import ZArith NArith String Ascii List Lia Bool Sorted.
From stdpp Require Import gmap strings list.

Import ListNotations.
Local Open Scope string_scope.
Local Open Scope list_scope.
Local Open Scope Z_scope.

(** ** package time

    A [Time] is an instant, counted in nanoseconds from January 1, year 1,
    00:00:00 UTC, the instant Go's zero [time.Time] denotes.  A [Duration] is
    Go's int64 count of nanoseconds. *)

Module time.

Definition Duration := Z.
Definition Time := Z.

Definition Nanosecond : Duration := 1.
Definition Microsecond : Duration := 1000 * Nanosecond.
Definition Millisecond : Duration := 1000 * Microsecond.
Definition Second : Duration := 1000 * Millisecond.

Definition minDuration : Duration := - 2 ^ 63.
Definition maxDuration : Duration := 2 ^ 63 - 1.

(** seconds between year 1 and the Unix epoch *)
Definition unixToInternal : Z :=
  (1969 * 365 + 1969 / 4 - 1969 / 100 + 1969 / 400) * 86400.

Definition IsZero (t : Time) : bool := t =? 0.

Definition Add (t : Time) (d : Duration) : Time := t + d.

(** [t.Sub(u)]: the difference, saturated to the range of a Duration *)
Definition Sub (t u : Time) : Duration :=
  let d := t - u in
  if d <? minDuration then minDuration
  else if maxDuration <? d then maxDuration
  else d.

(** [time.Since(t)] at clock reading [now] *)
Definition Since (now t : Time) : Duration := Sub now t.

Definition Before (t u : Time) : bool := t <? u.

(** the method [t.Unix()]: whole seconds since the Unix epoch *)
Definition Time_Unix (t : Time) : Z := t / Second - unixToInternal.

(** the function [time.Unix(sec, nsec)] *)
Definition Unix (sec nsec : Z) : Time := (sec + unixToInternal) * Second + nsec.

End time.

(** ** Errors

    The error values the two adapters can return. *)

Inductive error : Type :=
| ErrNotFound                                  (* store.ErrNotFound *)
| redis_Nil                                    (* redis.Nil *)
| engine_error (msg : string)                  (* a failure reported by the engine *)
| errors_New (msg : string)                    (* errors.New(msg) *)
| fmt_Errorf (msg : string) (cause : error).   (* fmt.Errorf(msg ..., cause) *)

Definition bytes := list Byte.byte.

(** ** package store ([options.go]) *)

Module store.

(** [store.Record] *)
Module Record.
Record t := mk {
  Key : string;
  Value : bytes;
  TTL : time.Duration;
  Expiry : time.Time
}.
End Record.

(** [store.Options]; the [Context] field carries nothing the adapters read *)
Module Options.
Record t := mk {
  Addresses : list string;
  Database : string;
  Table : string;
  Auth : bool;
  Password : string
}.
Definition zero : t := mk [] "" "" false "".
End Options.

Definition Option := Options.t -> Options.t.

Definition WithAddresses (addrs : list string) : Option :=
  fun o => Options.mk addrs (Options.Database o) (Options.Table o)
                      (Options.Auth o) (Options.Password o).

Definition WithDatabase (database table : string) : Option :=
  fun o => Options.mk (Options.Addresses o) database table
                      (Options.Auth o) (Options.Password o).

Definition WithAuth (auth : bool) (passwd : string) : Option :=
  fun o => Options.mk (Options.Addresses o) (Options.Database o)
                      (Options.Table o) auth passwd.

Module WriteOptions.
Record t := mk {
  Address : string;
  Database : string;
  Table : string;
  Expiry : time.Time;
  TTL : time.Duration
}.
Definition zero : t := mk "" "" "" 0 0.
End WriteOptions.

Definition WriteOption := WriteOptions.t -> WriteOptions.t.


Definition WithWriteDatabase (database table : string) : WriteOption :=
  fun w => WriteOptions.mk (WriteOptions.Address w) database table
                           (WriteOptions.Expiry w) (WriteOptions.TTL w).

Definition WithWriteExpiry (t : time.Time) : WriteOption :=
  fun w => WriteOptions.mk (WriteOptions.Address w) (WriteOptions.Database w)
                           (WriteOptions.Table w) t (WriteOptions.TTL w).

Definition WithWriteTTL (d : time.Duration) : WriteOption :=
  fun w => WriteOptions.mk (WriteOptions.Address w) (WriteOptions.Database w)
                           (WriteOptions.Table w) (WriteOptions.Expiry w) d.

Module ReadOptions.
Record t := mk {
  Address : string;
  Database : string;
  Table : string;
  Prefix : bool;
  Suffix : bool;
  Limit : N;
  Offset : N
}.
Definition zero : t := mk "" "" "" false false 0%N 0%N.
End ReadOptions.

Definition ReadOption := ReadOptions.t -> ReadOptions.t.



Definition WithReadPrefix : ReadOption :=
  fun r => ReadOptions.mk (ReadOptions.Address r) (ReadOptions.Database r)
             (ReadOptions.Table r) true (ReadOptions.Suffix r)
             (ReadOptions.Limit r) (ReadOptions.Offset r).


(** [WithReadLimit(limit, offset...)]: only the first of the variadic
    offsets is looked at *)
Definition WithReadLimit (limit : N) (offset : list N) : ReadOption :=
  fun r => ReadOptions.mk (ReadOptions.Address r) (ReadOptions.Database r)
             (ReadOptions.Table r) (ReadOptions.Prefix r) (ReadOptions.Suffix r)
             limit
             (match offset with
              | [] => ReadOptions.Offset r
              | o :: _ => o
              end).

Module DeleteOptions.
Record t := mk { Database : string; Table : string }.
Definition zero : t := mk "" "".
End DeleteOptions.

Definition DeleteOption := DeleteOptions.t -> DeleteOptions.t.


Module ListOptions.
Record t := mk {
  Database : string;
  Table : string;
  Prefix : string;
  Suffix : string;
  Limit : N;
  Offset : N
}.
Definition zero : t := mk "" "" "" "" 0%N 0%N.
End ListOptions.

Definition ListOption := ListOptions.t -> ListOptions.t.

Definition WithListFrom (database table : string) : ListOption :=
  fun l => ListOptions.mk database table (ListOptions.Prefix l) (ListOptions.Suffix l)
             (ListOptions.Limit l) (ListOptions.Offset l).

Definition WithListPrefix (p : string) : ListOption :=
  fun l => ListOptions.mk (ListOptions.Database l) (ListOptions.Table l) p
             (ListOptions.Suffix l) (ListOptions.Limit l) (ListOptions.Offset l).

Definition WithListSuffix (s : string) : ListOption :=
  fun l => ListOptions.mk (ListOptions.Database l) (ListOptions.Table l)
             (ListOptions.Prefix l) s (ListOptions.Limit l) (ListOptions.Offset l).

Definition WithListLimit (n : N) : ListOption :=
  fun l => ListOptions.mk (ListOptions.Database l) (ListOptions.Table l)
             (ListOptions.Prefix l) (ListOptions.Suffix l) n (ListOptions.Offset l).

Definition WithListOffset (o : N) : ListOption :=
  fun l => ListOptions.mk (ListOptions.Database l) (ListOptions.Table l)
             (ListOptions.Prefix l) (ListOptions.Suffix l) (ListOptions.Limit l) o.

(** [for _, o := range opts { o(&options) }] *)
Definition apply {A : Type} (opts : list (A -> A)) (init : A) : A :=
  fold_left (fun acc o => o acc) opts init.

End store.


(** ** Key patterns

    Both engines select keys with a pattern language of their own: redis
    [KEYS] takes a glob ([*], [?], [[...]], backslash escapes) and SQL [LIKE]
    takes [%], [_] and backslash escapes.  Both are compiled to the same
    token list and matched by [tmatch].  Comparison is byte-wise. *)

Module pattern.

Inductive tok : Type :=
| TLit (c : ascii)                               (* exactly this byte *)
| TOne                                           (* any one byte *)
| TMany                                          (* any run of bytes *)
| TClass (neg : bool) (items : list (ascii * ascii)).  (* a bracket class *)

Definition ascii_leb (a b : ascii) : bool := (N_of_ascii a <=? N_of_ascii b)%N.

Definition in_range (c : ascii) (r : ascii * ascii) : bool :=
  let (lo, hi) := r in
  if ascii_leb lo hi then ascii_leb lo c && ascii_leb c hi
  else ascii_leb hi c && ascii_leb c lo.

Definition class_match (neg : bool) (items : list (ascii * ascii)) (c : ascii) : bool :=
  xorb neg (existsb (in_range c) items).

Fixpoint tmatch (p : list tok) (s : list ascii) {struct p} : bool :=
  match p with
  | [] => match s with [] => true | _ :: _ => false end
  | TLit c :: p' =>
      match s with
      | c' :: s' => Ascii.eqb c c' && tmatch p' s'
      | [] => false
      end
  | TOne :: p' =>
      match s with
      | _ :: s' => tmatch p' s'
      | [] => false
      end
  | TClass neg items :: p' =>
      match s with
      | c' :: s' => class_match neg items c' && tmatch p' s'
      | [] => false
      end
  | TMany :: p' =>
      (fix star (s : list ascii) : bool :=
         tmatch p' s ||
         match s with
         | [] => false
         | _ :: s' => star s'
         end) s
  end.

(** SQL [LIKE]: [%] any run, [_] any one byte, backslash quotes the next byte *)
Fixpoint like_tokens (p : list ascii) : list tok :=
  match p with
  | [] => []
  | "%"%char :: p' => TMany :: like_tokens p'
  | "_"%char :: p' => TOne :: like_tokens p'
  | "\"%char :: c :: p' => TLit c :: like_tokens p'
  | c :: p' => TLit c :: like_tokens p'
  end.

(** redis glob.  [cls] is [None] outside a bracket class and holds the
    class read so far inside one; a class left open at the end of the pattern
    is closed there. *)
Fixpoint glob_tokens (cls : option (bool * list (ascii * ascii))) (p : list ascii)
  : list tok :=
  match cls with
  | None =>
      match p with
      | [] => []
      | "*"%char :: p' => TMany :: glob_tokens None p'
      | "?"%char :: p' => TOne :: glob_tokens None p'
      | "\"%char :: c :: p' => TLit c :: glob_tokens None p'
      | "["%char :: "^"%char :: p' => glob_tokens (Some (true, [])) p'
      | "["%char :: p' => glob_tokens (Some (false, [])) p'
      | c :: p' => TLit c :: glob_tokens None p'
      end
  | Some (neg, items) =>
      match p with
      | [] => [TClass neg items]
      | "\"%char :: c :: p' => glob_tokens (Some (neg, items ++ [(c, c)])) p'
      | "]"%char :: p' => TClass neg items :: glob_tokens None p'
      | lo :: "-"%char :: hi :: p' => glob_tokens (Some (neg, items ++ [(lo, hi)])) p'
      | c :: p' => glob_tokens (Some (neg, items ++ [(c, c)])) p'
      end
  end.

Definition like (pat s : string) : bool :=
  tmatch (like_tokens (list_ascii_of_string pat)) (list_ascii_of_string s).

Definition glob (pat s : string) : bool :=
  tmatch (glob_tokens None (list_ascii_of_string pat)) (list_ascii_of_string s).

(** strings with none of the bytes the pattern language treats specially *)
Definition glob_plain (s : string) : bool :=
  forallb (fun c => negb (existsb (Ascii.eqb c) ["*"; "?"; "["; "\"]%char))
          (list_ascii_of_string s).

Definition like_plain (s : string) : bool :=
  forallb (fun c => negb (existsb (Ascii.eqb c) ["%"; "_"; "\"]%char))
          (list_ascii_of_string s).

End pattern.

Definition has_prefix (p s : string) : bool := String.prefix p s.

Fixpoint list_is_suffix (p s : list ascii) : bool :=
  bool_decide (p = s) ||
  match s with
  | [] => false
  | _ :: s' => list_is_suffix p s'
  end.

Definition has_suffix (p s : string) : bool :=
  list_is_suffix (list_ascii_of_string p) (list_ascii_of_string s).

(** ** The redis engine, as seen through go-redis

    The engine is not part of the repository; this is a model of what the
    adapter relies on.  A client is the keyspace of the server it talks to
    and the state of the connection.  An entry past its expiry is gone for
    every command, as it is on a redis server.  A call on a broken
    connection returns the transport error and touches nothing.  Expiries
    are kept at the clock's resolution. *)

Module redis.

Record entry := mkEntry {
  val : bytes;
  expireAt : option time.Time
}.

Record Client := mkClient {
  keyspace : gmap string entry;
  broken : option string
}.

Definition live (now : time.Time) (e : entry) : bool :=
  match expireAt e with
  | None => true
  | Some t => now <? t
  end.

Definition find (c : Client) (now : time.Time) (k : string) : option entry :=
  match keyspace c !! k with
  | Some e => if live now e then Some e else None
  | None => None
  end.

Definition live_keys (c : Client) (now : time.Time) : list string :=
  map fst (List.filter (fun kv => live now (snd kv)) (map_to_list (keyspace c))).

(** [client.Keys(pattern).Result()] *)
Definition Keys (c : Client) (now : time.Time) (pat : string)
  : list string * option error :=
  match broken c with
  | Some m => ([], Some (engine_error m))
  | None => (List.filter (pattern.glob pat) (live_keys c now), None)
  end.

(** [client.Get(key).Bytes()]: [redis.Nil] when the key is absent; the slice
    of a reply is never nil *)
Definition Get_Bytes (c : Client) (now : time.Time) (k : string)
  : option bytes * option error :=
  match broken c with
  | Some m => (None, Some (engine_error m))
  | None =>
      match find c now k with
      | Some e => (Some (val e), None)
      | None => (None, Some redis_Nil)
      end
  end.

(** [client.TTL(key).Result()]: the server's reply in seconds (-1: no expiry,
    -2: no such key) times [time.Second] *)
Definition TTL (c : Client) (now : time.Time) (k : string)
  : time.Duration * option error :=
  match broken c with
  | Some m => (0, Some (engine_error m))
  | None =>
      match find c now k with
      | None => (-2 * time.Second, None)
      | Some e =>
          match expireAt e with
          | None => (-1 * time.Second, None)
          | Some t =>
              (((t - now) / time.Millisecond + 500) / 1000 * time.Second, None)
          end
      end
  end.

(** [client.Set(key, value, expiration).Err()]: go-redis sends an expiry only
    when [expiration > 0] *)
Definition Set_ (c : Client) (now : time.Time) (k : string) (v : bytes)
  (expiration : time.Duration) : Client * option error :=
  match broken c with
  | Some m => (c, Some (engine_error m))
  | None =>
      let e := mkEntry v (if 0 <? expiration
                          then Some (time.Add now expiration) else None) in
      (mkClient (<[k := e]> (keyspace c)) None, None)
  end.

(** [redis.Options], as far as [configure] sets it *)
Module Options.
Record t := mk {
  Addr : string;
  Password : string;
  DB : Z
}.
End Options.

(** [client.Del(key).Err()] *)
Definition Del (c : Client) (k : string) : Client * option error :=
  match broken c with
  | Some m => (c, Some (engine_error m))
  | None => (mkClient (delete k (keyspace c)) None, None)
  end.

End redis.

(** ** The redis adapter ([rkv])

    Every method takes the reading [now] of the clock for the call.  [Read]
    ranges over a Go map, in no particular order; the model ranges over the
    [elements] of the set, and nothing below depends on their order. *)

Module rkv.

Record t := mk {
  options : store.Options.t;
  client : redis.Client
}.

(** the body of [for rkey = range keys] in [Read] *)
Fixpoint read_records (c : redis.Client) (now : time.Time) (key : string)
  (keys : list string) (records : list store.Record.t)
  : list store.Record.t * option error :=
  match keys with
  | [] => (records, None)
  | rkey :: rest =>
      let (val, err) := redis.Get_Bytes c now rkey in
      match err with
      | Some redis_Nil => ([], Some ErrNotFound)
      | Some e => ([], Some e)
      | None =>
          match val with
          | None => ([], Some ErrNotFound)
          | Some v =>
              let (d, err) := redis.TTL c now rkey in
              match err with
              | Some e => ([], Some e)
              | None =>
                  read_records c now key rest
                    (records ++ [store.Record.mk key v d (time.Add now d)])
              end
          end
      end
  end.

Definition read_options (r : t) (opts : list store.ReadOption) : store.ReadOptions.t :=
  store.apply opts
    (store.ReadOptions.mk "" "" (store.Options.Table (options r)) false false 0%N 0%N).

Definition Read (r : t) (now : time.Time) (key : string) (opts : list store.ReadOption)
  : list store.Record.t * option error :=
  let options := read_options r opts in
  let rkey := store.ReadOptions.Table options +:+ key in
  let keys : gset string := {[ rkey ]} in
  (* Prefix *)
  let step1 : gset string * option error :=
    if store.ReadOptions.Prefix options then
      let prefixKey := rkey +:+ "*" in
      let (pkeys, err) := redis.Keys (client r) now prefixKey in
      match err with
      | Some e => (keys, Some e)
      | None => (keys ∪ list_to_set pkeys, None)
      end
    else (keys, None) in
  match step1 with
  | (_, Some e) => ([], Some e)
  | (keys, None) =>
      (* Suffix *)
      let step2 : gset string * option error :=
        if store.ReadOptions.Suffix options then
          let suffixKey := "*" +:+ rkey in
          let (skeys, err) := redis.Keys (client r) now suffixKey in
          match err with
          | Some e => (keys, Some e)
          | None => (keys ∪ list_to_set skeys, None)
          end
        else (keys, None) in
      match step2 with
      | (_, Some e) => ([], Some e)
      | (keys, None) => read_records (client r) now key (elements keys) []
      end
  end.

Definition delete_options (r : t) (opts : list store.DeleteOption) : store.DeleteOptions.t :=
  store.apply opts (store.DeleteOptions.mk "" (store.Options.Table (options r))).

Definition Delete (r : t) (key : string) (opts : list store.DeleteOption)
  : t * option error :=
  let options := delete_options r opts in
  let rkey := store.DeleteOptions.Table options +:+ key in
  let (c, err) := redis.Del (client r) rkey in
  (mk (rkv.options r) c, err).

Definition write_options (r : t) (opts : list store.WriteOption) : store.WriteOptions.t :=
  store.apply opts
    (store.WriteOptions.mk "" "" (store.Options.Table (options r)) 0 0).

(** the record as [Write] leaves it: the caller's record is updated in place *)
Definition write_record (now : time.Time) (record : store.Record.t)
  (opts : list store.WriteOption) (options : store.WriteOptions.t) : store.Record.t :=
  if (0 <? length opts)%nat then
    let record :=
      if negb (time.IsZero (store.WriteOptions.Expiry options)) then
        store.Record.mk (store.Record.Key record) (store.Record.Value record)
          (time.Since now (store.WriteOptions.Expiry options))
          (store.WriteOptions.Expiry options)
      else record in
    if negb (store.WriteOptions.TTL options =? 0) then
      store.Record.mk (store.Record.Key record) (store.Record.Value record)
        (store.WriteOptions.TTL options)
        (time.Add now (store.WriteOptions.TTL options))
    else record
  else record.

(** returns the store, the caller's record as updated, and the error *)
Definition Write (r : t) (now : time.Time) (record : store.Record.t)
  (opts : list store.WriteOption) : t * store.Record.t * option error :=
  let options := write_options r opts in
  let record := write_record now record opts options in
  let rkey := store.WriteOptions.Table options +:+ store.Record.Key record in
  let (c, err) :=
    redis.Set_ (client r) now rkey (store.Record.Value record) (store.Record.TTL record) in
  (mk (rkv.options r) c, record, err).

Definition list_options (r : t) (opts : list store.ListOption) : store.ListOptions.t :=
  store.apply opts
    (store.ListOptions.mk "" (store.Options.Table (options r)) "" "" 0%N 0%N).

Definition List (r : t) (now : time.Time) (opts : list store.ListOption)
  : list string * option error :=
  let options := list_options r opts in
  let pattern :=
    if negb (String.eqb (store.ListOptions.Prefix options) "") then
      store.ListOptions.Prefix options +:+ "*"
    else if negb (String.eqb (store.ListOptions.Suffix options) "") then
      "*" +:+ store.ListOptions.Suffix options
    else "*" in
  let (keys, err) := redis.Keys (client r) now pattern in
  match err with
  | Some e => ([], Some e)
  | None => (keys, None)
  end.

Section configure.

(** [redis.ParseURL]: the options a URL spells out, [None] when it does not
    parse *)
Variable ParseURL : string -> option redis.Options.t.
(** [redis.NewClient]: the client for the server the options lead to *)
Variable NewClient : redis.Options.t -> redis.Client.

(** the client [configure] builds from the store's options *)
Definition configure_client (options : store.Options.t) : redis.Client * option error :=
  let addrs := store.Options.Addresses options in
  let addrs := if (length addrs =? 0)%nat then ["redis://127.0.0.1:6379"] else addrs in
  let redisOptions :=
    match ParseURL (hd "" addrs) with
    | Some o => o
    | None =>
        (* Backwards compatibility *)
        redis.Options.mk (hd "" addrs) "" 0
    end in
  let redisOptions :=
    if store.Options.Auth options
    then redis.Options.mk (redis.Options.Addr redisOptions)
           (store.Options.Password options) (redis.Options.DB redisOptions)
    else redisOptions in
  (NewClient redisOptions, None).

Definition configure (r : t) : t * option error :=
  let (c, err) := configure_client (options r) in
  (mk (options r) c, err).

Definition Init (r : t) (opts : list store.Option) : t * option error :=
  configure (mk (store.apply opts (options r)) (client r)).

(** [NewStore]: [log.Fatal] on a configuration error leaves no store *)
Definition NewStore (opts : list store.Option) : option t :=
  let options := store.apply opts store.Options.zero in
  match configure_client options with
  | (_, Some _) => None
  | (c, None) => Some (mk options c)
  end.

End configure.

End rkv.

(** ** package unicode / utf8, as far as [configure] uses them *)

Module utf8.

Definition RuneError : Z := 65533.

Definition between (lo hi b : Z) : bool := (lo <=? b) && (b <=? hi).

(** the runes a [for ... range] over a string yields: an ill-formed byte
    yields [RuneError] and advances by one byte *)
Fixpoint runes (s : list Z) : list Z :=
  match s with
  | [] => []
  | b0 :: t0 =>
      if b0 <? 128 then b0 :: runes t0
      else if (b0 <? 194) || (244 <? b0) then RuneError :: runes t0
      else if b0 <? 224 then
        match t0 with
        | b1 :: t1 =>
            if between 128 191 b1
            then Z.lor (Z.shiftl (Z.land b0 31) 6) (Z.land b1 63) :: runes t1
            else RuneError :: runes t0
        | [] => RuneError :: runes t0
        end
      else if b0 <? 240 then
        let lo := if b0 =? 224 then 160 else 128 in
        let hi := if b0 =? 237 then 159 else 191 in
        match t0 with
        | b1 :: b2 :: t2 =>
            if between lo hi b1 && between 128 191 b2
            then Z.lor (Z.shiftl (Z.land b0 15) 12)
                   (Z.lor (Z.shiftl (Z.land b1 63) 6) (Z.land b2 63)) :: runes t2
            else RuneError :: runes t0
        | _ => RuneError :: runes t0
        end
      else
        let lo := if b0 =? 240 then 144 else 128 in
        let hi := if b0 =? 244 then 143 else 191 in
        match t0 with
        | b1 :: b2 :: b3 :: t3 =>
            if between lo hi b1 && between 128 191 b2 && between 128 191 b3
            then Z.lor (Z.shiftl (Z.land b0 7) 18)
                   (Z.lor (Z.shiftl (Z.land b1 63) 12)
                      (Z.lor (Z.shiftl (Z.land b2 63) 6) (Z.land b3 63))) :: runes t3
            else RuneError :: runes t0
        | _ => RuneError :: runes t0
        end
  end.

Definition string_runes (s : string) : list Z :=
  runes (map (fun c => Z.of_N (N_of_ascii c)) (list_ascii_of_string s)).

End utf8.

Module unicode.

Definition MaxLatin1 : Z := 255.

(** the Latin-1 entries of the property table that carry pLu or pLl *)
Definition latin1_letter (r : Z) : bool :=
  utf8.between 65 90 r || utf8.between 97 122 r ||
  (r =? 170) || (r =? 181) || (r =? 186) ||
  utf8.between 192 214 r || utf8.between 216 246 r || utf8.between 248 255 r.

(** [IsLetter]; [Letter] is the range table [unicode.Letter], consulted only
    above Latin-1 *)
Definition IsLetter (Letter : Z -> bool) (r : Z) : bool :=
  if utf8.between 0 MaxLatin1 r then latin1_letter r else Letter r.

End unicode.

(** ** The relational engine, as seen through gorm

    The engine is not part of the repository; this is a model of what the
    adapter relies on, with every statement read as the SQL it spells out.
    A connection reaches a set of named tables.  A table keeps its rows in
    the order a scan without [ORDER BY] returns them in and hands out ids
    from an auto-increment counter; SQL promises nothing about the order of
    such a scan, and a property that needs it to be the order of the ids
    says so ([table_wf]).  A session collects conditions and clauses, each
    builder call returning a new session; [Select] runs it.  [Create] is
    handed a value and no table, and works on the table gorm derives from
    the type of the value.

    Two things are not modelled.  Keys are compared byte by byte, although
    the schema declares the collation [utf8mb4_general_ci], which also
    equates keys that differ in case; the sizes of the columns are left
    out.  And the one failure of the engine is a connection on which every
    statement on a table is refused, whether or not the server still
    answers the steps of the setup: a connection that reads a table and
    refuses to write it does not occur. *)

Module storeRecord.
Record t := mk {
  ID : Z;
  Key : string;
  Value : bytes;
  Expiry : Z
}.
End storeRecord.

Module gorm.

Record Table_ := mkTable {
  rows : list storeRecord.t;
  autoIncrement : Z
}.

(** what [configure] asks of the server before it touches a table *)
Inductive setup := ping | create_database | use_database.

(** [broken]: the server refuses the statements on its tables with this
    message; [answers]: the steps of the setup it answers all the same *)
Record Conn := openConn {
  tables : gmap string Table_;
  broken : option string;
  answers : setup -> bool
}.

(** a connection that, when it is broken, answers nothing *)
Definition mkConn (tables : gmap string Table_) (broken : option string) : Conn :=
  openConn tables broken (fun _ => false).

(** a condition as handed to [Where] or [Or]: the SQL fragment and its
    arguments *)
Definition condition : Type := string * list string.

Record Search := mkSearch {
  tableName : string;
  whereConditions : list condition;
  orConditions : list condition;
  limit : option N;
  offset : option N;
  orders : list string
}.

Definition Table (name : string) : Search := mkSearch name [] [] None None [].

Definition Where (s : Search) (query : string) (args : list string) : Search :=
  mkSearch (tableName s) (whereConditions s ++ [(query, args)]) (orConditions s)
           (limit s) (offset s) (orders s).

Definition Or (s : Search) (query : string) (args : list string) : Search :=
  mkSearch (tableName s) (whereConditions s) (orConditions s ++ [(query, args)])
           (limit s) (offset s) (orders s).

Definition Limit (s : Search) (n : N) : Search :=
  mkSearch (tableName s) (whereConditions s) (orConditions s)
           (Some n) (offset s) (orders s).

Definition Offset (s : Search) (n : N) : Search :=
  mkSearch (tableName s) (whereConditions s) (orConditions s)
           (limit s) (Some n) (orders s).

Definition Order (s : Search) (col : string) : Search :=
  mkSearch (tableName s) (whereConditions s) (orConditions s)
           (limit s) (offset s) (orders s ++ [col]).

(** the fragments the adapter uses; anything else is rejected by the engine.
    A bare column holds when it is not zero. *)
Definition eval_condition (c : condition) (row : storeRecord.t) : option bool :=
  match c with
  | ("key = ?", [k]) => Some (String.eqb (storeRecord.Key row) k)
  | ("key LIKE ?", [p]) => Some (pattern.like p (storeRecord.Key row))
  | ("id", []) => Some (negb (storeRecord.ID row =? 0))
  | _ => None
  end.

Definition holds (c : condition) (row : storeRecord.t) : bool :=
  match eval_condition c row with
  | Some b => b
  | None => false
  end.

Definition accepted (c : condition) : bool :=
  match eval_condition c (storeRecord.mk 0 "" [] 0) with
  | Some _ => true
  | None => false
  end.

(** the WHERE clause gorm builds: the [Where] conditions joined by AND, then
    the [Or] conditions joined to that by OR *)
Definition whereSQL (s : Search) (row : storeRecord.t) : bool :=
  match whereConditions s, orConditions s with
  | [], [] => true
  | [], ors => existsb (fun c => holds c row) ors
  | ands, ors =>
      forallb (fun c => holds c row) ands || existsb (fun c => holds c row) ors
  end.

Fixpoint insert_by_id (r : storeRecord.t) (l : list storeRecord.t) : list storeRecord.t :=
  match l with
  | [] => [r]
  | x :: l' =>
      if storeRecord.ID r <? storeRecord.ID x then r :: l
      else x :: insert_by_id r l'
  end.

Definition sort_by_id (l : list storeRecord.t) : list storeRecord.t :=
  fold_right insert_by_id [] l.

(** the rows a well-formed SELECT returns: WHERE, then ORDER BY, then OFFSET,
    then LIMIT *)
Definition run_select (s : Search) (rows : list storeRecord.t) : list storeRecord.t :=
  let matched := List.filter (whereSQL s) rows in
  let ordered :=
    match orders s with
    | [] => matched
    | _ => sort_by_id matched
    end in
  let skipped :=
    match offset s with
    | Some o => skipn (N.to_nat o) ordered
    | None => ordered
    end in
  match limit s with
  | Some l => firstn (N.to_nat l) skipped
  | None => skipped
  end.

(** the statement is well formed: known fragments, and no ordering or an
    ordering by [id] *)
Definition well_formed (s : Search) : bool :=
  forallb accepted (whereConditions s ++ orConditions s) &&
  forallb (String.eqb "id") (orders s).

(** [Scan] and [Find] on a session: run the SELECT it describes *)
Definition Select (c : Conn) (s : Search) : list storeRecord.t * option error :=
  match broken c with
  | Some m => ([], Some (engine_error m))
  | None =>
      match tables c !! tableName s with
      | None => ([], Some (engine_error "no such table"))
      | Some t =>
          if well_formed s then (run_select s (rows t), None)
          else ([], Some (engine_error "syntax error"))
      end
  end.

(** [SELECT id FROM table WHERE key = ?] read into [id]: the id of the row
    with that key, [id] left as it was when there is none *)
Definition SelectID (c : Conn) (table key : string) (id : Z) : Z * option error :=
  match broken c with
  | Some m => (id, Some (engine_error m))
  | None =>
      match tables c !! table with
      | None => (id, Some (engine_error "no such table"))
      | Some t =>
          match List.find (fun x => String.eqb (storeRecord.Key x) key) (rows t) with
          | Some x => (storeRecord.ID x, None)
          | None => (id, None)
          end
      end
  end.

(** the table gorm works on when it is handed a [*storeRecord] and no
    [Table]: the name of the type in snake case, in the plural *)
Definition model_table : string := "store_records".

(** [Create]: insert a row into [model_table]; an id of zero is replaced by
    the next auto-increment value; the unique index on [key] rejects a
    second row with the same key; the row goes to its place by id, as in a
    clustered index *)
Definition Create (c : Conn) (r : storeRecord.t) : Conn * option error :=
  let table := model_table in
  match broken c with
  | Some m => (c, Some (engine_error m))
  | None =>
      match tables c !! table with
      | None => (c, Some (engine_error "no such table"))
      | Some t =>
          if existsb (fun x => String.eqb (storeRecord.Key x) (storeRecord.Key r)) (rows t)
          then (c, Some (engine_error "duplicate entry"))
          else
            let id := if storeRecord.ID r =? 0 then autoIncrement t else storeRecord.ID r in
            let row := storeRecord.mk id (storeRecord.Key r) (storeRecord.Value r)
                         (storeRecord.Expiry r) in
            let t' := mkTable (insert_by_id row (rows t)) (Z.max (autoIncrement t) (id + 1)) in
            (openConn (<[table := t']> (tables c)) None (answers c), None)
      end
  end.

(** [SELECT ... FOR UPDATE; UPDATE table SET value = ?, expiry = ? WHERE id = ?]
    in one transaction *)
Definition Update (c : Conn) (table : string) (id : Z) (value : bytes) (expiry : Z)
  : Conn * option error :=
  match broken c with
  | Some m => (c, Some (engine_error m))
  | None =>
      match tables c !! table with
      | None => (c, Some (engine_error "no such table"))
      | Some t =>
          let upd x :=
            if storeRecord.ID x =? id
            then storeRecord.mk (storeRecord.ID x) (storeRecord.Key x) value expiry
            else x in
          (openConn (<[table := mkTable (map upd (rows t)) (autoIncrement t)]> (tables c))
             None (answers c),
           None)
      end
  end.

Fixpoint remove_first (key : string) (l : list storeRecord.t) : list storeRecord.t :=
  match l with
  | [] => []
  | x :: l' =>
      if String.eqb (storeRecord.Key x) key then l' else x :: remove_first key l'
  end.

(** [DELETE FROM table WHERE key = ? LIMIT 1] *)
Definition DeleteKey (c : Conn) (table key : string) : Conn * option error :=
  match broken c with
  | Some m => (c, Some (engine_error m))
  | None =>
      match tables c !! table with
      | None => (c, Some (engine_error "no such table"))
      | Some t =>
          (openConn (<[table := mkTable (remove_first key (rows t)) (autoIncrement t)]>
                       (tables c)) None (answers c),
           None)
      end
  end.

(** [CREATE DATABASE IF NOT EXISTS database ...]: the model keeps the tables
    of one database, which is there *)
Definition CreateDatabase (c : Conn) (database : string) : option error :=
  match broken c with
  | Some m => if answers c create_database then None else Some (engine_error m)
  | None => None
  end.

(** [USE database] *)
Definition Use (c : Conn) (database : string) : option error :=
  match broken c with
  | Some m => if answers c use_database then None else Some (engine_error m)
  | None => None
  end.

(** [CREATE TABLE IF NOT EXISTS table (...); CREATE UNIQUE INDEX ...] *)
Definition CreateTable (c : Conn) (table : string) : Conn * option error :=
  match broken c with
  | Some m => (c, Some (engine_error m))
  | None =>
      match tables c !! table with
      | Some _ => (c, None)
      | None => (openConn (<[table := mkTable [] 1]> (tables c)) None (answers c), None)
      end
  end.

(** [db.DB().Ping()] *)
Definition Ping (c : Conn) : option error :=
  match broken c with
  | Some m => if answers c ping then None else Some (engine_error m)
  | None => None
  end.

End gorm.

(** ** The mysql adapter ([ormStore])

    Every method takes the reading [now] of the clock for the call.  The
    deletions [Read] and [List] start with [go orm.Delete(key)] are returned
    as the list of their keys; they run after the call, if at all. *)

Module mysql.

Definition DefaultDatabase : string := "store".
Definition DefaultTable : string := "store".

Record ormStore := mk {
  options : store.Options.t;
  db : option gorm.Conn;          (* nil until [configure] has run *)
  database : string;
  table : string
}.

Definition nil_db : error := engine_error "nil pointer dereference".

(** set: update or insert *)
Definition set (orm : ormStore) (r : storeRecord.t) : ormStore * option error :=
  match db orm with
  | None => (orm, Some nil_db)
  | Some conn =>
      let (id, err) := gorm.SelectID conn (table orm) (storeRecord.Key r) (storeRecord.ID r) in
      match err with
      | Some e => (orm, Some (fmt_Errorf "Couldn't insert record" e))
      | None =>
          let r := storeRecord.mk id (storeRecord.Key r) (storeRecord.Value r)
                     (storeRecord.Expiry r) in
          if storeRecord.ID r =? 0 then
            (* [orm.db.Create(r)]: the store's table is not passed on *)
            let (conn', err) := gorm.Create conn r in
            match err with
            | Some e => (orm, Some (fmt_Errorf "Couldn't insert record" e))
            | None => (mk (options orm) (Some conn') (database orm) (table orm), None)
            end
          else
            let (conn', err) :=
              gorm.Update conn (table orm) (storeRecord.ID r)
                (storeRecord.Value r) (storeRecord.Expiry r) in
            match err with
            | Some e => (orm, Some (fmt_Errorf "Couldn't insert record" e))
            | None => (mk (options orm) (Some conn') (database orm) (table orm), None)
            end
      end
  end.

Definition initDB (conn : gorm.Conn) (database table : string) : gorm.Conn * option error :=
  (* Create the namespace's database *)
  match gorm.CreateDatabase conn database with
  | Some e => (conn, Some (fmt_Errorf "Couldn't create database" e))
  | None =>
      match gorm.Use conn database with
      | Some e => (conn, Some (fmt_Errorf "Couldn't use database" e))
      | None =>
          (* Create a table of the storeRecord *)
          let (conn', err) := gorm.CreateTable conn table in
          match err with
          | Some e => (conn, Some (fmt_Errorf "Couldn't create table" e))
          | None => (conn', None)
          end
      end
  end.

Definition dquote : string := String (ascii_of_nat 34) EmptyString.

Definition default_source (database : string) : string :=
  "root:@tcp(" +:+ dquote +:+ "127.0.0.1:3306" +:+ dquote +:+ ")/" +:+ database
  +:+ "?charset=utf8mb4&parseTime=True&loc=Local".

Section configure.

(** the range table [unicode.Letter] *)
Variable Letter : Z -> bool.
(** [gorm.Open("mysql", source)]: the connection the source leads to *)
Variable gorm_Open : string -> option gorm.Conn * option error.

Definition configure (orm : ormStore) : ormStore * option error :=
  let database := store.Options.Database (options orm) in
  let database := if (String.length database =? 0)%nat then DefaultDatabase else database in
  let table := store.Options.Table (options orm) in
  let table := if (String.length table =? 0)%nat then DefaultTable else table in
  let addrs := store.Options.Addresses (options orm) in
  let addrs := if (length addrs =? 0)%nat then [default_source database] else addrs in
  if existsb (fun r => negb (unicode.IsLetter Letter r)) (utf8.string_runes database)
  then (orm, Some (errors_New "store.namespace must only contain letters"))
  else
    let source := hd "" addrs in
    match gorm_Open source with
    | (_, Some e) => (orm, Some e)
    | (None, None) => (orm, Some nil_db)
    | (Some conn, None) =>
        match gorm.Ping conn with
        | Some e => (orm, Some e)
        | None =>
            (* save the values, then initialise the database *)
            let (conn', err) := initDB conn database table in
            (mk (options orm) (Some conn') database table, err)
        end
    end.

Definition Init (orm : ormStore) (opts : list store.Option) : ormStore * option error :=
  configure (mk (store.apply opts (options orm)) (db orm) (database orm) (table orm)).

(** [NewStore]: [log.Fatal] on a configuration error leaves no store *)
Definition NewStore (opts : list store.Option) : option ormStore :=
  let options := store.apply opts store.Options.zero in
  match configure (mk options None "" "") with
  | (_, Some _) => None
  | (orm, None) => Some orm
  end.

End configure.

(** a row is skipped by [Read] and [List] when this holds *)
Definition expired (now : time.Time) (r : storeRecord.t) : bool :=
  negb (storeRecord.Expiry r =? 0) &&
  time.Before (time.Unix (storeRecord.Expiry r) 0) now.

(** the loop over the scanned rows in [Read]; [spawned] collects the keys of
    the [go orm.Delete(key)] calls it starts *)
Fixpoint read_rows (now : time.Time) (storeRecords : list storeRecord.t)
  (records : list store.Record.t) (spawned : list string)
  : list store.Record.t * list string :=
  match storeRecords with
  | [] => (records, spawned)
  | storeRecord :: rest =>
      if expired now storeRecord then
        read_rows now rest records (spawned ++ [storeRecord.Key storeRecord])
      else
        read_rows now rest
          (records ++ [store.Record.mk (storeRecord.Key storeRecord)
                         (storeRecord.Value storeRecord) 0
                         (time.Unix (storeRecord.Expiry storeRecord) 0)])
          spawned
  end.

Definition uint_mul (a b : N) : N := ((a * b) mod 2 ^ 64)%N.

Definition read_session (orm : ormStore) (key : string) (options : store.ReadOptions.t)
  : gorm.Search :=
  let session := gorm.Table (table orm) in
  let session :=
    if store.ReadOptions.Prefix options then
      let session := gorm.Where session "key LIKE ?" [key +:+ "%"] in
      if store.ReadOptions.Suffix options
      then gorm.Or session "key LIKE ?" ["%" +:+ key]
      else session
    else if store.ReadOptions.Suffix options then
      gorm.Where session "key LIKE ?" ["%" +:+ key]
    else gorm.Where session "key = ?" [key] in
  let session :=
    if negb (store.ReadOptions.Limit options =? 0)%N then
      let session := gorm.Limit session (store.ReadOptions.Limit options) in
      if negb (store.ReadOptions.Offset options =? 0)%N then
        (* the session [Offset] returns is not kept *)
        let _ := gorm.Offset session
                   (uint_mul (store.ReadOptions.Limit options)
                             (store.ReadOptions.Offset options)) in
        session
      else session
    else session in
  gorm.Order session "id".

(** Read all records with keys; returns the records, the keys whose deletion
    was started in the background, and the error *)
Definition Read (orm : ormStore) (now : time.Time) (key : string)
  (opts : list store.ReadOption) : list store.Record.t * list string * option error :=
  let options := store.apply opts store.ReadOptions.zero in
  match db orm with
  | None => ([], [], Some nil_db)
  | Some conn =>
      let (storeRecords, err) := gorm.Select conn (read_session orm key options) in
      match err with
      | Some _ => ([], [], Some ErrNotFound)
      | None =>
          let (records, spawned) := read_rows now storeRecords [] [] in
          (records, spawned, None)
      end
  end.

(** the expiry column [Write] computes *)
Definition write_expiry (now : time.Time) (r : store.Record.t)
  (options : store.WriteOptions.t) : Z :=
  if negb (time.IsZero (store.Record.Expiry r)) then
    time.Time_Unix (store.Record.Expiry r)
  else if negb (store.Record.TTL r =? 0) then
    time.Time_Unix (time.Add now (store.Record.TTL r))
  else if negb (time.IsZero (store.WriteOptions.Expiry options)) then
    time.Time_Unix (store.WriteOptions.Expiry options)
  else if negb (store.WriteOptions.TTL options =? 0) then
    time.Time_Unix (time.Add now (store.WriteOptions.TTL options))
  else 0.

(** Write records *)
Definition Write (orm : ormStore) (now : time.Time) (r : store.Record.t)
  (opts : list store.WriteOption) : ormStore * option error :=
  let options := store.apply opts store.WriteOptions.zero in
  let storeRecord :=
    storeRecord.mk 0 (store.Record.Key r) (store.Record.Value r)
      (write_expiry now r options) in
  set orm storeRecord.

(** Delete records with keys *)
Definition Delete (orm : ormStore) (key : string) (opts : list store.DeleteOption)
  : ormStore * option error :=
  match db orm with
  | None => (orm, Some nil_db)
  | Some conn =>
      let (conn', err) := gorm.DeleteKey conn (table orm) key in
      match err with
      | Some e => (orm, Some e)
      | None => (mk (options orm) (Some conn') (database orm) (table orm), None)
      end
  end.

(** the loop over the found rows in [List] *)
Fixpoint list_rows (now : time.Time) (storeRecords : list storeRecord.t)
  (records : list string) (spawned : list string) : list string * list string :=
  match storeRecords with
  | [] => (records, spawned)
  | storeRecord :: rest =>
      if expired now storeRecord then
        list_rows now rest records (spawned ++ [storeRecord.Key storeRecord])
      else
        list_rows now rest (records ++ [storeRecord.Key storeRecord]) spawned
  end.

Definition list_session (orm : ormStore) (options : store.ListOptions.t) : gorm.Search :=
  let session := gorm.Table (table orm) in
  let session :=
    if negb (String.eqb (store.ListOptions.Prefix options) "") then
      let session :=
        gorm.Where session "key LIKE ?" [store.ListOptions.Prefix options +:+ "%"] in
      if negb (String.eqb (store.ListOptions.Suffix options) "")
      then gorm.Or session "key LIKE ?" ["%" +:+ store.ListOptions.Suffix options]
      else session
    else if negb (String.eqb (store.ListOptions.Suffix options) "") then
      gorm.Where session "key LIKE ?" ["%" +:+ store.ListOptions.Suffix options]
    else session in
  let session :=
    if negb (store.ListOptions.Limit options =? 0)%N then
      let session := gorm.Limit session (store.ListOptions.Limit options) in
      if negb (store.ListOptions.Offset options =? 0)%N then
        gorm.Offset session
          (uint_mul (store.ListOptions.Limit options) (store.ListOptions.Offset options))
      else session
    else session in
  gorm.Or session "id" [].

(** List all the known records; returns the keys, the keys whose deletion was
    started in the background, and the error *)
Definition List (orm : ormStore) (now : time.Time) (opts : list store.ListOption)
  : list string * list string * option error :=
  let options := store.apply opts store.ListOptions.zero in
  match db orm with
  | None => ([], [], Some nil_db)
  | Some conn =>
      let (storeRecords, err) := gorm.Select conn (list_session orm options) in
      match err with
      | Some e => ([], [], Some (fmt_Errorf "Couldn't find keys" e))
      | None =>
          let (records, spawned) := list_rows now storeRecords [] [] in
          (records, spawned, None)
      end
  end.

End mysql.

(** ** Invariants and views of the stored data *)

Definition row_lt (a b : storeRecord.t) : Prop := storeRecord.ID a < storeRecord.ID b.

(** a well-formed table: the unique index on [key] holds, a scan returns
    the rows in the order of their ids, and every id is positive and below
    the auto-increment counter, which is positive *)
Definition table_wf (t : gorm.Table_) : Prop :=
  List.NoDup (map storeRecord.Key (gorm.rows t)) /\
  StronglySorted row_lt (gorm.rows t) /\
  Forall (fun r => 0 < storeRecord.ID r < gorm.autoIncrement t) (gorm.rows t) /\
  0 < gorm.autoIncrement t.

(** the table the store's operations run on *)
Definition store_table (orm : mysql.ormStore) : option gorm.Table_ :=
  match mysql.db orm with
  | Some conn =>
      match gorm.broken conn with
      | None => gorm.tables conn !! mysql.table orm
      | Some _ => None
      end
  | None => None
  end.

(** the record [Read] builds from a row *)
Definition record_of_row (r : storeRecord.t) : store.Record.t :=
  store.Record.mk (storeRecord.Key r) (storeRecord.Value r) 0
    (time.Unix (storeRecord.Expiry r) 0).

Definition live_row (now : time.Time) (r : storeRecord.t) : bool :=
  negb (mysql.expired now r).

(** the rows the WHERE clause of [Read] selects *)
Definition read_matches (key : string) (prefix suffix : bool) (row : storeRecord.t) : bool :=
  if prefix then
    pattern.like (key +:+ "%") (storeRecord.Key row) ||
    (suffix && pattern.like ("%" +:+ key) (storeRecord.Key row))
  else if suffix then pattern.like ("%" +:+ key) (storeRecord.Key row)
  else String.eqb (storeRecord.Key row) key.

(** the rows of the table the store's operations run on *)
Definition stored_rows (orm : mysql.ormStore) : list storeRecord.t :=
  match store_table orm with
  | Some t => gorm.rows t
  | None => []
  end.

(** the deletions [Read] and [List] started, run one after the other *)
Definition run_spawned (orm : mysql.ormStore) (keys : list string) : mysql.ormStore :=
  fold_left (fun o k => fst (mysql.Delete o k [])) keys orm.

(** the record [rkv.Read] builds for the storage key [rkey] *)
Definition record_of_key (c : redis.Client) (now : time.Time) (key rkey : string)
  : store.Record.t :=
  let d := fst (redis.TTL c now rkey) in
  store.Record.mk key
    (match redis.find c now rkey with
     | Some e => redis.val e
     | None => []
     end)
    d (time.Add now d).

(** the table after [set] has written (value, expiry) over a key that is
    stored: the row with the key is updated in place *)
Definition update_table (t : gorm.Table_) (key : string) (value : bytes) (expiry : Z)
  : gorm.Table_ :=
  match List.find (fun x => String.eqb (storeRecord.Key x) key) (gorm.rows t) with
  | Some x =>
      gorm.mkTable
        (map (fun y => if storeRecord.ID y =? storeRecord.ID x
                       then storeRecord.mk (storeRecord.ID y) (storeRecord.Key y) value expiry
                       else y)
             (gorm.rows t))
        (gorm.autoIncrement t)
  | None => t
  end.

(** the store with its table replaced *)
Definition with_table (orm : mysql.ormStore) (t : gorm.Table_) : mysql.ormStore :=
  mysql.mk (mysql.options orm)
    (Some (gorm.openConn
             (<[mysql.table orm := t]>
                (match mysql.db orm with
                 | Some c => gorm.tables c
                 | None => ∅
                 end))
             None
             (match mysql.db orm with
              | Some c => gorm.answers c
              | None => fun _ => false
              end)))
    (mysql.database orm) (mysql.table orm).

(** ** Sample stores *)

Definition sample_now : time.Time := time.Unix 1700000000 0.

Definition sample_value : bytes := list_byte_of_string "v".

(** a mysql store configured with the table "store_records" of the database
    "store", over a connection that reaches this one table *)
Definition sample_orm (rows : list storeRecord.t) (auto : Z) : mysql.ormStore :=
  mysql.mk (store.WithDatabase "" "store_records" store.Options.zero)
    (Some (gorm.mkConn (<["store_records" := gorm.mkTable rows auto]> ∅) None))
    "store" "store_records".

(** a redis store holding the given keys, none with an expiry *)
Definition sample_rkv (keys : list string) : rkv.t :=
  rkv.mk store.Options.zero
    (redis.mkClient
       (list_to_map (map (fun k => (k, redis.mkEntry sample_value None)) keys))
       None).

(** * Properties *)

(** ** Strings and patterns *)

Lemma list_ascii_of_string_append (a b : string) :
  list_ascii_of_string (a +:+ b) = list_ascii_of_string a ++ list_ascii_of_string b.
Proof.
  induction a as [|c a IH]; simpl; [reflexivity|]. now rewrite IH.
Qed.

Lemma list_ascii_of_string_inj (a b : string) :
  list_ascii_of_string a = list_ascii_of_string b -> a = b.
Proof.
  intros H. rewrite <- (string_of_list_ascii_of_string a).
  rewrite <- (string_of_list_ascii_of_string b). now rewrite H.
Qed.


Lemma tmatch_many_unfold (q : list pattern.tok) (s : list ascii) :
  pattern.tmatch (pattern.TMany :: q) s =
  pattern.tmatch q s ||
  match s with
  | [] => false
  | _ :: s' => pattern.tmatch (pattern.TMany :: q) s'
  end.
Proof. destruct s; reflexivity. Qed.

Lemma tmatch_many_last (s : list ascii) : pattern.tmatch [pattern.TMany] s = true.
Proof.
  induction s as [|c s IH]; [reflexivity|].
  rewrite tmatch_many_unfold. now rewrite IH.
Qed.

Lemma tmatch_lits_many (p s : string) :
  pattern.tmatch (map pattern.TLit (list_ascii_of_string p) ++ [pattern.TMany])
                 (list_ascii_of_string s) = has_prefix p s.
Proof.
  revert s. induction p as [|c p IH]; intros s.
  - simpl app. rewrite tmatch_many_last. now destruct s.
  - destruct s as [|c' s]; [reflexivity|].
    simpl. rewrite IH. unfold has_prefix. simpl.
    destruct (ascii_dec c c') as [->|Hne].
    + now rewrite Ascii.eqb_refl.
    + apply Ascii.eqb_neq in Hne. now rewrite Hne.
Qed.

Lemma tmatch_lits (p s : list ascii) :
  pattern.tmatch (map pattern.TLit p) s = bool_decide (p = s).
Proof.
  revert s. induction p as [|c p IH]; intros [|c' s]; simpl; try reflexivity.
  rewrite IH. destruct (Ascii.eqb c c') eqn:E.
  - apply Ascii.eqb_eq in E. subst c'. simpl.
    apply bool_decide_ext. split; [now intros ->|]. now intros [= ->].
  - simpl. symmetry. apply bool_decide_eq_false. intros [= -> _].
    now rewrite Ascii.eqb_refl in E.
Qed.

Lemma tmatch_many_lits (p s : list ascii) :
  pattern.tmatch (pattern.TMany :: map pattern.TLit p) s = list_is_suffix p s.
Proof.
  induction s as [|c s IH]; rewrite tmatch_many_unfold, tmatch_lits;
    cbn [list_is_suffix].
  - now rewrite orb_false_r.
  - now rewrite IH.
Qed.

Ltac each_ascii c :=
  let b0 := fresh in let b1 := fresh in let b2 := fresh in let b3 := fresh in
  let b4 := fresh in let b5 := fresh in let b6 := fresh in let b7 := fresh in
  destruct c as [b0 b1 b2 b3 b4 b5 b6 b7];
  destruct b0, b1, b2, b3, b4, b5, b6, b7.

Lemma like_tokens_plain (p : list ascii) (rest : list ascii) :
  forallb (fun c => negb (existsb (Ascii.eqb c) ["%"; "_"; "\"]%char)) p = true ->
  pattern.like_tokens (p ++ rest) = map pattern.TLit p ++ pattern.like_tokens rest.
Proof.
  induction p as [|c p IH]; [reflexivity|].
  simpl forallb. intros H. apply andb_prop in H as [Hc Hp].
  specialize (IH Hp). simpl app.
  each_ascii c; try discriminate Hc; simpl; now rewrite <- IH.
Qed.

Lemma glob_tokens_plain (p : list ascii) (rest : list ascii) :
  forallb (fun c => negb (existsb (Ascii.eqb c) ["*"; "?"; "["; "\"]%char)) p = true ->
  pattern.glob_tokens None (p ++ rest) = map pattern.TLit p ++ pattern.glob_tokens None rest.
Proof.
  induction p as [|c p IH]; [reflexivity|].
  simpl forallb. intros H. apply andb_prop in H as [Hc Hp].
  specialize (IH Hp). simpl app.
  each_ascii c; try discriminate Hc; simpl; now rewrite <- IH.
Qed.

Lemma like_prefix (p k : string) :
  pattern.like_plain p = true -> pattern.like (p +:+ "%") k = has_prefix p k.
Proof.
  intros H. unfold pattern.like. rewrite list_ascii_of_string_append.
  rewrite like_tokens_plain by exact H. apply tmatch_lits_many.
Qed.

Lemma like_suffix (p k : string) :
  pattern.like_plain p = true -> pattern.like ("%" +:+ p) k = has_suffix p k.
Proof.
  intros H. unfold pattern.like. rewrite list_ascii_of_string_append.
  change (list_ascii_of_string "%") with ["%"%char]. simpl app.
  change (pattern.like_tokens ("%"%char :: list_ascii_of_string p))
    with (pattern.TMany :: pattern.like_tokens (list_ascii_of_string p)).
  rewrite <- (app_nil_r (list_ascii_of_string p)) at 1.
  rewrite like_tokens_plain by exact H. simpl pattern.like_tokens.
  rewrite app_nil_r. apply tmatch_many_lits.
Qed.

Lemma glob_prefix (p k : string) :
  pattern.glob_plain p = true -> pattern.glob (p +:+ "*") k = has_prefix p k.
Proof.
  intros H. unfold pattern.glob. rewrite list_ascii_of_string_append.
  rewrite glob_tokens_plain by exact H. apply tmatch_lits_many.
Qed.

Lemma glob_star (k : string) : pattern.glob "*" k = true.
Proof. unfold pattern.glob. apply tmatch_many_last. Qed.

(** ** The relational engine *)

Lemma read_rows_spec (now : time.Time) (l : list storeRecord.t)
  (recs : list store.Record.t) (sp : list string) :
  mysql.read_rows now l recs sp =
  (recs ++ map record_of_row (List.filter (live_row now) l),
   sp ++ map storeRecord.Key (List.filter (mysql.expired now) l)).
Proof.
  revert recs sp. induction l as [|r l IH]; intros recs sp; simpl.
  - now rewrite !app_nil_r.
  - unfold live_row at 1. destruct (mysql.expired now r); simpl; rewrite IH.
    + now rewrite <- app_assoc.
    + now rewrite <- app_assoc.
Qed.

Lemma list_rows_spec (now : time.Time) (l : list storeRecord.t)
  (keys : list string) (sp : list string) :
  mysql.list_rows now l keys sp =
  (keys ++ map storeRecord.Key (List.filter (live_row now) l),
   sp ++ map storeRecord.Key (List.filter (mysql.expired now) l)).
Proof.
  revert keys sp. induction l as [|r l IH]; intros keys sp; simpl.
  - now rewrite !app_nil_r.
  - unfold live_row at 1. destruct (mysql.expired now r); simpl; rewrite IH.
    + now rewrite <- app_assoc.
    + now rewrite <- app_assoc.
Qed.

Lemma insert_by_id_head (r : storeRecord.t) (l : list storeRecord.t) :
  Forall (row_lt r) l -> gorm.insert_by_id r l = r :: l.
Proof.
  intros H. destruct l as [|x l]; [reflexivity|].
  inversion H as [|? ? Hx _]; subst. simpl.
  unfold row_lt in Hx. apply Z.ltb_lt in Hx. now rewrite Hx.
Qed.

Lemma insert_by_id_last (r : storeRecord.t) (l : list storeRecord.t) :
  Forall (fun x => row_lt x r) l -> gorm.insert_by_id r l = l ++ [r].
Proof.
  induction 1 as [|x l Hx _ IH]; [reflexivity|]. simpl.
  unfold row_lt in Hx.
  destruct (storeRecord.ID r <? storeRecord.ID x) eqn:E.
  - apply Z.ltb_lt in E. lia.
  - now rewrite IH.
Qed.

Lemma sort_by_id_sorted (l : list storeRecord.t) :
  StronglySorted row_lt l -> gorm.sort_by_id l = l.
Proof.
  induction 1 as [|x l _ IH Hx]; [reflexivity|].
  simpl. rewrite IH. now apply insert_by_id_head.
Qed.

Lemma filter_sorted (f : storeRecord.t -> bool) (l : list storeRecord.t) :
  StronglySorted row_lt l -> StronglySorted row_lt (List.filter f l).
Proof.
  induction 1 as [|x l _ IH Hx]; simpl; [constructor|].
  destruct (f x); [|exact IH].
  constructor; [exact IH|].
  rewrite List.Forall_forall in *. intros y Hy. apply filter_In in Hy. now apply Hx.
Qed.

Lemma in_insert_by_id (r x : storeRecord.t) (l : list storeRecord.t) :
  In x (gorm.insert_by_id r l) <-> x = r \/ In x l.
Proof.
  induction l as [|y l IH]; simpl.
  - intuition.
  - destruct (storeRecord.ID r <? storeRecord.ID y); simpl; rewrite ?IH; intuition.
Qed.

Lemma in_sort_by_id (x : storeRecord.t) (l : list storeRecord.t) :
  In x (gorm.sort_by_id l) <-> In x l.
Proof.
  induction l as [|y l IH]; simpl; [tauto|].
  rewrite in_insert_by_id, IH. intuition.
Qed.

Lemma in_firstn {A : Type} (n : nat) (l : list A) (x : A) :
  In x (firstn n l) -> In x l.
Proof.
  revert l. induction n as [|n IH]; intros [|y l]; simpl; try tauto.
  intros [->|H]; [now left|right; now apply IH].
Qed.

Lemma in_skipn {A : Type} (n : nat) (l : list A) (x : A) :
  In x (skipn n l) -> In x l.
Proof.
  revert l. induction n as [|n IH]; intros [|y l]; simpl; try tauto.
  intros H. right. now apply IH.
Qed.

Lemma in_run_select (s : gorm.Search) (rows : list storeRecord.t) (x : storeRecord.t) :
  In x (gorm.run_select s rows) -> In x rows.
Proof.
  unfold gorm.run_select. intros H.
  assert (Hl : In x (match gorm.offset s with
                     | Some o => skipn (N.to_nat o)
                                   (match gorm.orders s with
                                    | [] => List.filter (gorm.whereSQL s) rows
                                    | _ => gorm.sort_by_id (List.filter (gorm.whereSQL s) rows)
                                    end)
                     | None => match gorm.orders s with
                               | [] => List.filter (gorm.whereSQL s) rows
                               | _ => gorm.sort_by_id (List.filter (gorm.whereSQL s) rows)
                               end
                     end)).
  { destruct (gorm.limit s); [now apply in_firstn in H|exact H]. }
  assert (Ho : In x (match gorm.orders s with
                     | [] => List.filter (gorm.whereSQL s) rows
                     | _ => gorm.sort_by_id (List.filter (gorm.whereSQL s) rows)
                     end)).
  { destruct (gorm.offset s); [now apply in_skipn in Hl|exact Hl]. }
  destruct (gorm.orders s); [|apply (proj1 (in_sort_by_id _ _)) in Ho];
    now apply filter_In in Ho.
Qed.

Lemma Select_in (c : gorm.Conn) (s : gorm.Search) (t : gorm.Table_)
  (l : list storeRecord.t) (x : storeRecord.t) :
  gorm.tables c !! gorm.tableName s = Some t ->
  gorm.Select c s = (l, None) -> In x l -> In x (gorm.rows t).
Proof.
  unfold gorm.Select. intros Ht.
  destruct (gorm.broken c); [discriminate|]. rewrite Ht.
  destruct (gorm.well_formed s); [|discriminate].
  intros [= <-]. apply in_run_select.
Qed.

Arguments pattern.like : simpl never.
Arguments String.eqb : simpl never.

Lemma read_session_shape (orm : mysql.ormStore) (key : string) (o : store.ReadOptions.t) :
  gorm.tableName (mysql.read_session orm key o) = mysql.table orm /\
  gorm.well_formed (mysql.read_session orm key o) = true /\
  gorm.orders (mysql.read_session orm key o) = ["id"] /\
  gorm.offset (mysql.read_session orm key o) = None /\
  gorm.limit (mysql.read_session orm key o) =
    if (store.ReadOptions.Limit o =? 0)%N then None else Some (store.ReadOptions.Limit o).
Proof.
  unfold mysql.read_session.
  destruct (store.ReadOptions.Prefix o), (store.ReadOptions.Suffix o),
    (store.ReadOptions.Limit o =? 0)%N, (store.ReadOptions.Offset o =? 0)%N;
    repeat split; reflexivity.
Qed.

Lemma read_session_where (orm : mysql.ormStore) (key : string) (o : store.ReadOptions.t)
  (row : storeRecord.t) :
  gorm.whereSQL (mysql.read_session orm key o) row =
  read_matches key (store.ReadOptions.Prefix o) (store.ReadOptions.Suffix o) row.
Proof.
  unfold mysql.read_session, read_matches.
  destruct (store.ReadOptions.Prefix o), (store.ReadOptions.Suffix o),
    (store.ReadOptions.Limit o =? 0)%N, (store.ReadOptions.Offset o =? 0)%N;
    cbn; rewrite ?andb_true_r, ?orb_false_r; reflexivity.
Qed.

Lemma mysql_Read_spec (orm : mysql.ormStore) (now : time.Time) (key : string)
  (opts : list store.ReadOption) (t : gorm.Table_) :
  store_table orm = Some t ->
  StronglySorted row_lt (gorm.rows t) ->
  let o := store.apply opts store.ReadOptions.zero in
  let matched :=
    List.filter (read_matches key (store.ReadOptions.Prefix o) (store.ReadOptions.Suffix o))
      (gorm.rows t) in
  let page :=
    if (store.ReadOptions.Limit o =? 0)%N then matched
    else firstn (N.to_nat (store.ReadOptions.Limit o)) matched in
  mysql.Read orm now key opts =
  (map record_of_row (List.filter (live_row now) page),
   map storeRecord.Key (List.filter (mysql.expired now) page), None).
Proof.
  unfold store_table, mysql.Read. intros Ht Hs.
  destruct (mysql.db orm) as [conn|]; [|discriminate].
  destruct (gorm.broken conn) eqn:Hb; [discriminate|].
  set (o := store.apply opts store.ReadOptions.zero).
  destruct (read_session_shape orm key o) as (Hn & Hwf & Hord & Hoff & Hlim).
  unfold gorm.Select. rewrite Hb, Hn, Ht, Hwf.
  unfold gorm.run_select. rewrite Hord, Hoff, Hlim.
  rewrite (filter_ext _ _ (read_session_where orm key o)).
  rewrite (sort_by_id_sorted _ (filter_sorted _ _ Hs)).
  cbv zeta.
  destruct (store.ReadOptions.Limit o =? 0)%N; now rewrite read_rows_spec.
Qed.

Lemma list_session_shape (orm : mysql.ormStore) (o : store.ListOptions.t) :
  gorm.tableName (mysql.list_session orm o) = mysql.table orm /\
  gorm.well_formed (mysql.list_session orm o) = true /\
  gorm.orders (mysql.list_session orm o) = [] /\
  gorm.offset (mysql.list_session orm o) =
    (if (store.ListOptions.Limit o =? 0)%N then None
     else if (store.ListOptions.Offset o =? 0)%N then None
     else Some (mysql.uint_mul (store.ListOptions.Limit o) (store.ListOptions.Offset o))) /\
  gorm.limit (mysql.list_session orm o) =
    if (store.ListOptions.Limit o =? 0)%N then None else Some (store.ListOptions.Limit o).
Proof.
  unfold mysql.list_session.
  destruct (String.eqb (store.ListOptions.Prefix o) ""),
    (String.eqb (store.ListOptions.Suffix o) ""),
    (store.ListOptions.Limit o =? 0)%N, (store.ListOptions.Offset o =? 0)%N;
    repeat split; reflexivity.
Qed.

Lemma list_session_where (orm : mysql.ormStore) (o : store.ListOptions.t)
  (row : storeRecord.t) :
  storeRecord.ID row <> 0 -> gorm.whereSQL (mysql.list_session orm o) row = true.
Proof.
  intros Hid. apply Z.eqb_neq in Hid.
  unfold mysql.list_session.
  destruct (String.eqb (store.ListOptions.Prefix o) ""),
    (String.eqb (store.ListOptions.Suffix o) ""),
    (store.ListOptions.Limit o =? 0)%N, (store.ListOptions.Offset o =? 0)%N;
    cbn; rewrite Hid; cbn; rewrite ?orb_true_r; reflexivity.
Qed.

Lemma filter_all {A : Type} (f : A -> bool) (l : list A) :
  Forall (fun x => f x = true) l -> List.filter f l = l.
Proof.
  induction 1 as [|x l Hx _ IH]; [reflexivity|]. simpl. now rewrite Hx, IH.
Qed.

(** the page of rows the engine hands to [List] *)
Lemma mysql_List_spec (orm : mysql.ormStore) (now : time.Time)
  (opts : list store.ListOption) (t : gorm.Table_) :
  store_table orm = Some t ->
  table_wf t ->
  let o := store.apply opts store.ListOptions.zero in
  let page :=
    if (store.ListOptions.Limit o =? 0)%N then gorm.rows t
    else firstn (N.to_nat (store.ListOptions.Limit o))
           (skipn (N.to_nat (mysql.uint_mul (store.ListOptions.Limit o)
                               (store.ListOptions.Offset o)))
              (gorm.rows t)) in
  mysql.List orm now opts =
  (map storeRecord.Key (List.filter (live_row now) page),
   map storeRecord.Key (List.filter (mysql.expired now) page), None).
Proof.
  unfold store_table, mysql.List. intros Ht (_ & _ & Hids & _).
  destruct (mysql.db orm) as [conn|]; [|discriminate].
  destruct (gorm.broken conn) eqn:Hb; [discriminate|].
  set (o := store.apply opts store.ListOptions.zero).
  destruct (list_session_shape orm o) as (Hn & Hwf & Hord & Hoff & Hlim).
  unfold gorm.Select. rewrite Hb, Hn, Ht, Hwf.
  unfold gorm.run_select. rewrite Hord, Hoff, Hlim.
  rewrite filter_all.
  2:{ eapply List.Forall_impl; [|exact Hids]. intros r Hr. cbv beta in Hr.
      apply list_session_where. lia. }
  cbv zeta.
  destruct (store.ListOptions.Limit o =? 0)%N; [now rewrite list_rows_spec|].
  destruct (store.ListOptions.Offset o =? 0)%N eqn:Ho.
  - apply N.eqb_eq in Ho. rewrite Ho. unfold mysql.uint_mul.
    rewrite N.mul_0_r. simpl skipn. now rewrite list_rows_spec.
  - now rewrite list_rows_spec.
Qed.

Lemma NoDup_map_inj {A B : Type} (f : A -> B) (l : list A) (a b : A) :
  List.NoDup (map f l) -> In a l -> In b l -> f a = f b -> a = b.
Proof.
  induction l as [|x l IH]; simpl; [tauto|].
  intros Hnd Ha Hb Hf. inversion Hnd as [|? ? Hx Hl]; subst.
  destruct Ha as [->|Ha], Hb as [->|Hb]; try reflexivity.
  - exfalso. apply Hx. rewrite Hf. now apply in_map.
  - exfalso. apply Hx. rewrite <- Hf. now apply in_map.
  - now apply IH.
Qed.

Lemma mysql_Read_records (orm : mysql.ormStore) (now : time.Time) (key : string)
  (opts : list store.ReadOption) (t : gorm.Table_) (rec : store.Record.t) :
  store_table orm = Some t ->
  In rec (fst (fst (mysql.Read orm now key opts))) ->
  exists r, In r (gorm.rows t) /\ live_row now r = true /\ rec = record_of_row r.
Proof.
  unfold store_table, mysql.Read. intros Ht.
  destruct (mysql.db orm) as [conn|]; [|discriminate].
  destruct (gorm.broken conn) eqn:Hb; [discriminate|].
  set (s := mysql.read_session orm key _).
  destruct (gorm.Select conn s) as [l [e|]] eqn:Hsel; [simpl; tauto|].
  rewrite read_rows_spec. simpl. intros Hin.
  apply in_map_iff in Hin as (r & <- & Hr). apply filter_In in Hr as [Hr Hlive].
  exists r. repeat split; [|exact Hlive].
  eapply Select_in; [|exact Hsel|exact Hr].
  subst s. now rewrite (proj1 (read_session_shape orm key _)).
Qed.

Lemma mysql_List_keys (orm : mysql.ormStore) (now : time.Time)
  (opts : list store.ListOption) (t : gorm.Table_) (k : string) :
  store_table orm = Some t ->
  In k (fst (fst (mysql.List orm now opts))) ->
  exists r, In r (gorm.rows t) /\ live_row now r = true /\ k = storeRecord.Key r.
Proof.
  unfold store_table, mysql.List. intros Ht.
  destruct (mysql.db orm) as [conn|]; [|discriminate].
  destruct (gorm.broken conn) eqn:Hb; [discriminate|].
  set (s := mysql.list_session orm _).
  destruct (gorm.Select conn s) as [l [e|]] eqn:Hsel; [simpl; tauto|].
  rewrite list_rows_spec. simpl. intros Hin.
  apply in_map_iff in Hin as (r & <- & Hr). apply filter_In in Hr as [Hr Hlive].
  exists r. repeat split; [|exact Hlive].
  eapply Select_in; [|exact Hsel|exact Hr].
  subst s. now rewrite (proj1 (list_session_shape orm _)).
Qed.

Ltac solve_table_wf :=
  unfold table_wf; simpl; split; [|split; [|split; [|lia]]];
  [ repeat (apply List.NoDup_cons; [simpl; intuition discriminate|]); apply List.NoDup_nil
  | repeat (apply SSorted_cons; [|repeat apply List.Forall_cons; try apply List.Forall_nil;
                                   unfold row_lt; simpl; lia]);
    apply SSorted_nil
  | repeat (apply List.Forall_cons; [simpl; lia|]); apply List.Forall_nil ].

(** ** Lazy expiration (C2) *)

(** C2, as stated, fails at the boundary: a row whose expiry is exactly the
    current instant is not skipped, because the adapters test
    [time.Unix(expiry, 0).Before(now)], which is strict. *)
Lemma C2_counterexample :
  ~ (forall (orm : mysql.ormStore) (t : gorm.Table_) (now : time.Time) (key : string)
       (row : storeRecord.t),
       store_table orm = Some t -> table_wf t -> In row (gorm.rows t) ->
       storeRecord.Expiry row <> 0 ->
       time.Unix (storeRecord.Expiry row) 0 <= now ->
       (forall rec, In rec (fst (fst (mysql.Read orm now key []))) ->
                    store.Record.Key rec <> storeRecord.Key row) /\
       ~ In (storeRecord.Key row) (fst (fst (mysql.List orm now [])))).
Proof.
  intros H.
  pose (row := storeRecord.mk 1 "k" sample_value 1700000000).
  destruct (H (sample_orm [row] 2) (gorm.mkTable [row] 2) sample_now "k" row)
    as [_ Hlist].
  - reflexivity.
  - solve_table_wf.
  - now left.
  - discriminate.
  - vm_compute. discriminate.
  - apply Hlist. vm_compute. now left.
Qed.

(** C2, amended: a stored row whose expiry is not zero and lies strictly
    before the current instant is left out by [Read] (no returned record
    carries its key) and by [List] (its key is not returned), although the
    row is still in the table when the call is made. *)
Theorem C2_expired_rows_are_omitted
  (orm : mysql.ormStore) (t : gorm.Table_) (now : time.Time) (key : string)
  (ropts : list store.ReadOption) (lopts : list store.ListOption)
  (row : storeRecord.t) :
  store_table orm = Some t ->
  List.NoDup (map storeRecord.Key (gorm.rows t)) ->
  In row (gorm.rows t) ->
  storeRecord.Expiry row <> 0 ->
  time.Unix (storeRecord.Expiry row) 0 < now ->
  (forall rec, In rec (fst (fst (mysql.Read orm now key ropts))) ->
               store.Record.Key rec <> storeRecord.Key row) /\
  ~ In (storeRecord.Key row) (fst (fst (mysql.List orm now lopts))).
Proof.
  intros Ht Hnd Hrow Hexp Hlt.
  assert (Hdead : live_row now row = false).
  { unfold live_row, mysql.expired, time.Before.
    apply Z.eqb_neq in Hexp. apply Z.ltb_lt in Hlt. now rewrite Hexp, Hlt. }
  split.
  - intros rec Hin Hk.
    destruct (mysql_Read_records _ _ _ _ _ _ Ht Hin) as (r & Hr & Hlive & ->).
    assert (r = row) by (eapply NoDup_map_inj; eauto). subst r. congruence.
  - intros Hin.
    destruct (mysql_List_keys _ _ _ _ _ Ht Hin) as (r & Hr & Hlive & Hk).
    assert (r = row) by (eapply NoDup_map_inj; eauto). subst r. congruence.
Qed.

Lemma C2_expired_rows_are_omitted_witness :
  let row := storeRecord.mk 1 "k" sample_value 1600000000 in
  let orm := sample_orm [row; storeRecord.mk 2 "j" sample_value 0] 3 in
  (forall rec, In rec (fst (fst (mysql.Read orm sample_now "k" []))) ->
               store.Record.Key rec <> "k") /\
  ~ In "k" (fst (fst (mysql.List orm sample_now []))).
Proof.
  intros row orm.
  apply (C2_expired_rows_are_omitted orm
           (gorm.mkTable [row; storeRecord.mk 2 "j" sample_value 0] 3)
           sample_now "k" [] [] row).
  - reflexivity.
  - simpl. repeat constructor; simpl; intuition discriminate.
  - now left.
  - discriminate.
  - vm_compute. reflexivity.
Defined.

(** ** Pagination and expiration (C4) *)

(** C4, as stated, fails: the engine applies LIMIT to the matching rows,
    expired ones included, and the adapter filters afterwards.  With an
    expired row first and a live row second, [Read] with Limit 1 returns
    nothing, whereas filtering first and paginating second would return the
    live row. *)
Lemma C4_counterexample :
  ~ (forall (orm : mysql.ormStore) (t : gorm.Table_) (now : time.Time) (key : string)
       (limit : N),
       store_table orm = Some t -> table_wf t -> limit <> 0%N ->
       fst (fst (mysql.Read orm now key [store.WithReadPrefix; store.WithReadLimit limit []])) =
       firstn (N.to_nat limit)
         (map record_of_row
            (List.filter (live_row now)
               (List.filter (read_matches key true false) (gorm.rows t))))).
Proof.
  intros H.
  pose (rows := [storeRecord.mk 1 "a1" sample_value 1; storeRecord.mk 2 "a2" sample_value 0]).
  specialize (H (sample_orm rows 3) (gorm.mkTable rows 3) sample_now "a" 1%N).
  assert (Hwf : table_wf (gorm.mkTable rows 3)) by solve_table_wf.
  specialize (H eq_refl Hwf).
  assert (Hne : 1%N <> 0%N) by discriminate.
  specialize (H Hne). vm_compute in H. discriminate H.
Qed.

(** C4, amended: on the relational adapter the engine paginates the matching
    rows, expired ones included, and the expiry filter runs on the page it
    returns.  [Read] (no Offset) returns the live rows among the first Limit
    matching rows in id order; [List] (no prefix or suffix) returns the live
    keys among the Limit rows that follow the first Limit * Offset rows.
    An expired row in the page counts toward the limit. *)
Theorem C4_expiry_filter_follows_pagination
  (orm : mysql.ormStore) (t : gorm.Table_) (now : time.Time) :
  store_table orm = Some t ->
  table_wf t ->
  (forall (key : string) (opts : list store.ReadOption),
     let o := store.apply opts store.ReadOptions.zero in
     store.ReadOptions.Limit o <> 0%N ->
     store.ReadOptions.Offset o = 0%N ->
     fst (fst (mysql.Read orm now key opts)) =
     map record_of_row
       (List.filter (live_row now)
          (firstn (N.to_nat (store.ReadOptions.Limit o))
             (List.filter
                (read_matches key (store.ReadOptions.Prefix o) (store.ReadOptions.Suffix o))
                (gorm.rows t))))) /\
  (forall (opts : list store.ListOption),
     let o := store.apply opts store.ListOptions.zero in
     store.ListOptions.Limit o <> 0%N ->
     store.ListOptions.Prefix o = "" ->
     store.ListOptions.Suffix o = "" ->
     fst (fst (mysql.List orm now opts)) =
     map storeRecord.Key
       (List.filter (live_row now)
          (firstn (N.to_nat (store.ListOptions.Limit o))
             (skipn (N.to_nat (mysql.uint_mul (store.ListOptions.Limit o)
                                 (store.ListOptions.Offset o)))
                (gorm.rows t))))).
Proof.
  intros Ht Hwf. split.
  - intros key opts o Hlim _.
    rewrite (mysql_Read_spec orm now key opts t Ht (proj1 (proj2 Hwf))).
    apply N.eqb_neq in Hlim. fold o. now rewrite Hlim.
  - intros opts o Hlim _ _.
    rewrite (mysql_List_spec orm now opts t Ht Hwf).
    apply N.eqb_neq in Hlim. fold o. now rewrite Hlim.
Qed.

Lemma C4_expiry_filter_follows_pagination_witness :
  let rows := [storeRecord.mk 1 "a1" sample_value 1; storeRecord.mk 2 "a2" sample_value 0;
               storeRecord.mk 3 "a3" sample_value 0] in
  fst (fst (mysql.Read (sample_orm rows 4) sample_now "a"
              [store.WithReadPrefix; store.WithReadLimit 2 []])) =
    [record_of_row (storeRecord.mk 2 "a2" sample_value 0)] /\
  fst (fst (mysql.List (sample_orm rows 4) sample_now
              [store.WithListLimit 1; store.WithListOffset 0])) = [].
Proof.
  intros rows.
  assert (Hwf : table_wf (gorm.mkTable rows 4)) by solve_table_wf.
  destruct (C4_expiry_filter_follows_pagination (sample_orm rows 4)
              (gorm.mkTable rows 4) sample_now eq_refl Hwf) as [HR HL].
  split.
  - rewrite (HR "a" [store.WithReadPrefix; store.WithReadLimit 2 []]);
      [vm_compute; reflexivity | discriminate | reflexivity].
  - rewrite (HL [store.WithListLimit 1; store.WithListOffset 0]);
      [vm_compute; reflexivity | discriminate | reflexivity | reflexivity].
Defined.

(** ** Pagination of List (C7) *)

Lemma rkv_List_ignores_paging (r : rkv.t) (now : time.Time) (limit offset : N) :
  redis.broken (rkv.client r) = None ->
  rkv.List r now [store.WithListLimit limit; store.WithListOffset offset] =
  (redis.live_keys (rkv.client r) now, None).
Proof.
  intros Hb. unfold rkv.List, rkv.list_options. cbn.
  unfold redis.Keys. rewrite Hb.
  rewrite filter_all; [reflexivity|].
  apply List.Forall_forall. intros k _. apply glob_star.
Qed.

(** C7 at its own example: five keys, none expired, listed with Limit 2 and
    Offset 1.  [List] of the cache adapter never reads Limit or Offset: it
    returns the five keys.  [List] of the relational adapter sends the page
    to the engine but asks for no order: the column "id" goes to [Or], so the
    statement it runs has no [ORDER BY], where the statement of [Read] is
    ordered by "id"; which two keys come back is left to the engine. *)
Theorem C7_list_at_failing_input :
  let keys := ["k0"; "k1"; "k2"; "k3"; "k4"] in
  let opts := [store.WithListLimit 2; store.WithListOffset 1] in
  let listed := rkv.List (sample_rkv keys) sample_now opts in
  (snd listed = None /\ length (fst listed) = 5%nat /\
   forall k, In k keys -> In k (fst listed)) /\
  forall (orm : mysql.ormStore) (key : string),
    let session := mysql.list_session orm (store.apply opts store.ListOptions.zero) in
    gorm.orders session = [] /\
    gorm.orConditions session = [("id", [])] /\
    gorm.limit session = Some 2%N /\ gorm.offset session = Some 2%N /\
    gorm.orders (mysql.read_session orm key store.ReadOptions.zero) = ["id"].
Proof.
  split.
  - vm_compute. repeat split.
    intros k Hk. repeat (destruct Hk as [<-|Hk]; [auto 10|]). destruct Hk.
  - intros orm key. cbv zeta. repeat split.
Qed.

(** ** Errors of Read (C5) *)

Lemma rkv_Read_exact (r : rkv.t) (now : time.Time) (key : string)
  (opts : list store.ReadOption) :
  store.ReadOptions.Prefix (rkv.read_options r opts) = false ->
  store.ReadOptions.Suffix (rkv.read_options r opts) = false ->
  rkv.Read r now key opts =
  rkv.read_records (rkv.client r) now key
    [store.ReadOptions.Table (rkv.read_options r opts) +:+ key] [].
Proof.
  intros Hp Hs. unfold rkv.Read. rewrite Hp, Hs.
  now rewrite elements_singleton.
Qed.

Lemma rkv_read_one (c : redis.Client) (now : time.Time) (key rkey : string) :
  redis.broken c = None ->
  rkv.read_records c now key [rkey] [] =
  match redis.find c now rkey with
  | None => ([], Some ErrNotFound)
  | Some e =>
      let d := fst (redis.TTL c now rkey) in
      ([store.Record.mk key (redis.val e) d (time.Add now d)], None)
  end.
Proof.
  intros Hb. unfold rkv.read_records, redis.Get_Bytes, redis.TTL. rewrite Hb.
  destruct (redis.find c now rkey) as [e|]; [|reflexivity].
  destruct (redis.expireAt e); reflexivity.
Qed.

Lemma rkv_Read_broken (r : rkv.t) (now : time.Time) (key : string)
  (opts : list store.ReadOption) (m : string) :
  redis.broken (rkv.client r) = Some m ->
  rkv.Read r now key opts = ([], Some (engine_error m)).
Proof.
  intros Hb. unfold rkv.Read, redis.Keys. rewrite Hb.
  destruct (store.ReadOptions.Prefix (rkv.read_options r opts)); [reflexivity|].
  destruct (store.ReadOptions.Suffix (rkv.read_options r opts)); [reflexivity|].
  rewrite elements_singleton. unfold rkv.read_records, redis.Get_Bytes.
  now rewrite Hb.
Qed.

Lemma mysql_Read_no_error (orm : mysql.ormStore) (now : time.Time) (key : string)
  (opts : list store.ReadOption) (t : gorm.Table_) :
  store_table orm = Some t -> snd (mysql.Read orm now key opts) = None.
Proof.
  unfold store_table, mysql.Read. intros Ht.
  destruct (mysql.db orm) as [conn|]; [|discriminate].
  destruct (gorm.broken conn) eqn:Hb; [discriminate|].
  set (o := store.apply opts store.ReadOptions.zero).
  destruct (read_session_shape orm key o) as (Hn & Hwf & _).
  unfold gorm.Select. rewrite Hb, Hn, Ht, Hwf.
  now rewrite read_rows_spec.
Qed.

Lemma mysql_Read_broken (orm : mysql.ormStore) (now : time.Time) (key : string)
  (opts : list store.ReadOption) (conn : gorm.Conn) (m : string) :
  mysql.db orm = Some conn -> gorm.broken conn = Some m ->
  mysql.Read orm now key opts = ([], [], Some ErrNotFound).
Proof.
  intros Hdb Hb. unfold mysql.Read, gorm.Select. now rewrite Hdb, Hb.
Qed.

(** C5 at the inputs where the relational adapter departs from it.  Over an
    empty table no record matches, yet [Read] returns an empty result and
    no error, where the cache adapter returns NotFound.  Over a broken
    connection, and over a connection that has no table of the store's
    name, the query fails and [Read] returns NotFound, where the cache
    adapter returns the engine's error.  The cache adapter itself returns
    NotFound for a Prefix read whose key is not stored although two stored
    keys have the prefix. *)
Theorem C5_read_at_failing_input :
  let broken :=
    mysql.mk store.Options.zero (Some (gorm.mkConn ∅ (Some "EOF"))) "store" "store" in
  let no_table :=
    mysql.mk store.Options.zero (Some (gorm.mkConn ∅ None)) "store" "store" in
  let rbroken := rkv.mk store.Options.zero (redis.mkClient ∅ (Some "EOF")) in
  mysql.Read (sample_orm [] 1) sample_now "k" [] = ([], [], None) /\
  rkv.Read (sample_rkv []) sample_now "k" [] = ([], Some ErrNotFound) /\
  mysql.Read broken sample_now "k" [] = ([], [], Some ErrNotFound) /\
  mysql.Read no_table sample_now "k" [] = ([], [], Some ErrNotFound) /\
  rkv.Read rbroken sample_now "k" [] = ([], Some (engine_error "EOF")) /\
  rkv.Read (sample_rkv ["ka"; "kb"]) sample_now "k" [store.WithReadPrefix] =
    ([], Some ErrNotFound).
Proof.
  vm_compute. repeat split.
Qed.

(** ** Expiry resolution on Write (C1) *)

(** the relational adapter looks at the record before the options: a record
    TTL decides the stored expiry whatever the options say *)
Lemma mysql_write_expiry_record_ttl (now : time.Time) (r : store.Record.t)
  (options : store.WriteOptions.t) :
  time.IsZero (store.Record.Expiry r) = true ->
  store.Record.TTL r <> 0 ->
  mysql.write_expiry now r options = time.Time_Unix (time.Add now (store.Record.TTL r)).
Proof.
  intros Hz Httl. unfold mysql.write_expiry. rewrite Hz. simpl.
  apply Z.eqb_neq in Httl. now rewrite Httl.
Qed.

(** and among the options it looks at Expiry before TTL *)
Lemma mysql_write_expiry_option_expiry (now : time.Time) (r : store.Record.t)
  (options : store.WriteOptions.t) :
  time.IsZero (store.Record.Expiry r) = true ->
  store.Record.TTL r = 0 ->
  time.IsZero (store.WriteOptions.Expiry options) = false ->
  mysql.write_expiry now r options = time.Time_Unix (store.WriteOptions.Expiry options).
Proof.
  intros Hz Httl He. unfold mysql.write_expiry. now rewrite Hz, Httl, He.
Qed.

(** the cache adapter takes the option Expiry into the record, with
    [time.Since(Expiry)] as its TTL: not positive for an expiry that is not
    in the past, so the engine is given no expiry *)
Lemma rkv_write_record_option_expiry (now : time.Time) (record : store.Record.t)
  (o : store.WriteOption) (opts : list store.WriteOption) (options : store.WriteOptions.t) :
  time.IsZero (store.WriteOptions.Expiry options) = false ->
  store.WriteOptions.TTL options = 0 ->
  rkv.write_record now record (o :: opts) options =
  store.Record.mk (store.Record.Key record) (store.Record.Value record)
    (time.Since now (store.WriteOptions.Expiry options))
    (store.WriteOptions.Expiry options).
Proof.
  intros He Httl. unfold rkv.write_record. simpl. now rewrite He, Httl.
Qed.

(** an option TTL is taken as it is, with now + TTL as the record's Expiry *)
Lemma rkv_write_record_option_ttl (now : time.Time) (record : store.Record.t)
  (o : store.WriteOption) (opts : list store.WriteOption) (options : store.WriteOptions.t) :
  store.WriteOptions.TTL options <> 0 ->
  rkv.write_record now record (o :: opts) options =
  store.Record.mk (store.Record.Key record) (store.Record.Value record)
    (store.WriteOptions.TTL options) (time.Add now (store.WriteOptions.TTL options)).
Proof.
  intros Httl. unfold rkv.write_record. simpl.
  apply Z.eqb_neq in Httl. rewrite Httl. simpl.
  now destruct (negb (time.IsZero (store.WriteOptions.Expiry options))).
Qed.

(** C1 at its own example: a record with TTL 5s written with the option
    Expiry = now + 100s.  The relational adapter stores now + 5s, not
    now + 100s; with the options Expiry and TTL both set it stores the option
    Expiry, not now + TTL; the cache adapter sets the record's Expiry to
    now + 100s but hands the engine the TTL -100s, so the entry gets no
    expiry at all. *)
Theorem C1_write_expiry_at_failing_input :
  let record := store.Record.mk "k" sample_value (5 * time.Second) 0 in
  let expiry := time.Add sample_now (100 * time.Second) in
  stored_rows (fst (mysql.Write (sample_orm [] 1) sample_now record
                      [store.WithWriteExpiry expiry])) =
    [storeRecord.mk 1 "k" sample_value
       (time.Time_Unix (time.Add sample_now (5 * time.Second)))] /\
  time.Time_Unix (time.Add sample_now (5 * time.Second)) <> time.Time_Unix expiry /\
  stored_rows (fst (mysql.Write (sample_orm [] 1) sample_now
                      (store.Record.mk "k" sample_value 0 0)
                      [store.WithWriteExpiry expiry; store.WithWriteTTL (7 * time.Second)])) =
    [storeRecord.mk 1 "k" sample_value (time.Time_Unix expiry)] /\
  (let '(r', record', err) :=
     rkv.Write (sample_rkv []) sample_now record [store.WithWriteExpiry expiry] in
   err = None /\
   store.Record.Expiry record' = expiry /\
   store.Record.TTL record' = -100 * time.Second /\
   redis.keyspace (rkv.client r') !! "k" = Some (redis.mkEntry sample_value None)).
Proof.
  vm_compute. repeat split; discriminate.
Qed.

(** ** Prefix and suffix in List (C3) *)

Lemma NoDup_map_filter {A B : Type} (g : A -> B) (f : A -> bool) (l : list A) :
  List.NoDup (map g l) -> List.NoDup (map g (List.filter f l)).
Proof.
  induction l as [|x l IH]; simpl; [constructor|].
  intros H. inversion H as [|? ? Hx Hl]; subst.
  destruct (f x); simpl; [|now apply IH].
  constructor; [|now apply IH].
  intros Hin. apply Hx. apply in_map_iff in Hin as (y & Hy & Hin).
  apply filter_In in Hin as [Hin _]. rewrite <- Hy. now apply in_map.
Qed.

Lemma live_keys_NoDup (c : redis.Client) (now : time.Time) :
  List.NoDup (redis.live_keys c now).
Proof.
  unfold redis.live_keys. apply NoDup_map_filter.
  apply NoDup_ListNoDup. apply NoDup_fst_map_to_list.
Qed.

Lemma rkv_List_prefix (r : rkv.t) (now : time.Time) (prefix suffix : string) :
  prefix <> "" ->
  redis.broken (rkv.client r) = None ->
  rkv.List r now [store.WithListPrefix prefix; store.WithListSuffix suffix] =
  (List.filter (pattern.glob (prefix +:+ "*")) (redis.live_keys (rkv.client r) now), None).
Proof.
  intros Hp Hb. unfold rkv.List, rkv.list_options. cbn.
  apply String.eqb_neq in Hp. rewrite Hp. cbn.
  unfold redis.Keys. now rewrite Hb.
Qed.

Lemma list_session_both (orm : mysql.ormStore) (prefix suffix : string)
  (row : storeRecord.t) :
  prefix <> "" -> suffix <> "" ->
  let o := store.apply [store.WithListPrefix prefix; store.WithListSuffix suffix]
             store.ListOptions.zero in
  gorm.whereSQL (mysql.list_session orm o) row =
  pattern.like (prefix +:+ "%") (storeRecord.Key row) ||
  (pattern.like ("%" +:+ suffix) (storeRecord.Key row) ||
   negb (storeRecord.ID row =? 0)).
Proof.
  intros Hp Hs. apply String.eqb_neq in Hp, Hs.
  unfold mysql.list_session. cbn. rewrite Hp, Hs. cbn.
  now rewrite andb_true_r, orb_false_r.
Qed.

Lemma mysql_List_both (orm : mysql.ormStore) (t : gorm.Table_) (now : time.Time)
  (prefix suffix : string) :
  prefix <> "" -> suffix <> "" ->
  store_table orm = Some t ->
  let o := store.apply [store.WithListPrefix prefix; store.WithListSuffix suffix]
             store.ListOptions.zero in
  fst (fst (mysql.List orm now [store.WithListPrefix prefix; store.WithListSuffix suffix])) =
  map storeRecord.Key
    (List.filter (live_row now)
       (List.filter (gorm.whereSQL (mysql.list_session orm o)) (gorm.rows t))).
Proof.
  intros Hp Hs Ht o. unfold store_table, mysql.List in *.
  destruct (mysql.db orm) as [conn|]; [|discriminate].
  destruct (gorm.broken conn) eqn:Hb; [discriminate|].
  fold o.
  destruct (list_session_shape orm o) as (Hn & Hwf & Hord & Hoff & Hlim).
  unfold gorm.Select. rewrite Hb, Hn, Ht, Hwf.
  unfold gorm.run_select. rewrite Hord, Hoff, Hlim. cbn -[mysql.list_session o].
  now rewrite list_rows_spec.
Qed.

(** C3 at its own example: the stored keys "a1", "1a" and "b1", none
    expired, listed with prefix "a" and suffix "1".  The keys that have the
    prefix or the suffix are "a1" and "b1".  [List] of the cache adapter
    returns "a1" alone: its else-if never sends the suffix to the engine once
    a prefix is set, although the suffix alone does find "a1" and "b1".
    [List] of the relational adapter joins the two patterns by OR, but its
    last call is [Or("id")], which every row satisfies: it returns "1a" too,
    and "zz" from a table that holds it. *)
Theorem C3_list_at_failing_input :
  let keys := ["a1"; "1a"; "b1"] in
  let opts := [store.WithListPrefix "a"; store.WithListSuffix "1"] in
  let rows := [storeRecord.mk 1 "a1" sample_value 0; storeRecord.mk 2 "1a" sample_value 0;
               storeRecord.mk 3 "b1" sample_value 0; storeRecord.mk 4 "zz" sample_value 0] in
  let listed := fst (fst (mysql.List (sample_orm rows 5) sample_now opts)) in
  List.filter (fun k => has_prefix "a" k || has_suffix "1" k) keys = ["a1"; "b1"] /\
  rkv.List (sample_rkv keys) sample_now opts = (["a1"], None) /\
  In "b1" (fst (rkv.List (sample_rkv keys) sample_now [store.WithListSuffix "1"])) /\
  In "1a" listed /\ In "zz" listed /\ length listed = 4%nat.
Proof.
  vm_compute. repeat split; auto 10.
Qed.

(** ** The Key of the records Read returns on the cache adapter (C10) *)

Lemma read_records_keys (c : redis.Client) (now : time.Time) (key : string)
  (keys : list string) (acc recs : list store.Record.t) :
  List.Forall (fun rec => store.Record.Key rec = key) acc ->
  rkv.read_records c now key keys acc = (recs, None) ->
  List.Forall (fun rec => store.Record.Key rec = key) recs /\
  length recs = (length acc + length keys)%nat.
Proof.
  revert acc. induction keys as [|k keys IH]; intros acc Hacc; simpl.
  - intros [= <-]. split; [exact Hacc|lia].
  - destruct (redis.Get_Bytes c now k) as [v [e|]]; [destruct e; discriminate|].
    destruct v as [v|]; [|discriminate].
    destruct (redis.TTL c now k) as [d [e|]]; [discriminate|].
    intros H. apply IH in H.
    + destruct H as [HF HL]. split; [exact HF|]. rewrite HL, length_app. simpl. lia.
    + apply List.Forall_app. split; [exact Hacc|]. now repeat constructor.
Qed.

(** C10: every record a successful [Read] of the cache adapter returns has
    its Key set to the key the caller searched for, whichever storage key it
    was read from; with Prefix or Suffix set and several keys matched, all
    the records carry that one Key. *)
Theorem C10_read_key_is_search_argument
  (r : rkv.t) (now : time.Time) (key : string) (opts : list store.ReadOption)
  (recs : list store.Record.t) :
  rkv.Read r now key opts = (recs, None) ->
  List.Forall (fun rec => store.Record.Key rec = key) recs.
Proof.
  unfold rkv.Read.
  set (o := rkv.read_options r opts).
  destruct (store.ReadOptions.Prefix o).
  - destruct (redis.Keys (rkv.client r) now _) as [pkeys [e|]]; [discriminate|].
    destruct (store.ReadOptions.Suffix o).
    + destruct (redis.Keys (rkv.client r) now _) as [skeys [e|]]; [discriminate|].
      intros H. now apply read_records_keys in H as [H _].
    + intros H. now apply read_records_keys in H as [H _].
  - destruct (store.ReadOptions.Suffix o).
    + destruct (redis.Keys (rkv.client r) now _) as [skeys [e|]]; [discriminate|].
      intros H. now apply read_records_keys in H as [H _].
    + intros H. now apply read_records_keys in H as [H _].
Qed.

Lemma C10_read_key_is_search_argument_witness :
  let r := sample_rkv ["a"; "ab"; "abc"; "b"] in
  length (fst (rkv.Read r sample_now "a" [store.WithReadPrefix])) = 3%nat /\
  List.Forall (fun rec => store.Record.Key rec = "a")
    (fst (rkv.Read r sample_now "a" [store.WithReadPrefix])).
Proof.
  intros r. split; [reflexivity|].
  apply (C10_read_key_is_search_argument r sample_now "a" [store.WithReadPrefix]).
  reflexivity.
Defined.

(** ** Validation of the database name (C9) *)

Lemma configure_rejects (Letter : Z -> bool)
  (gorm_Open : string -> option gorm.Conn * option error) (orm : mysql.ormStore) (r : Z) :
  In r (utf8.string_runes (store.Options.Database (mysql.options orm))) ->
  unicode.IsLetter Letter r = false ->
  mysql.configure Letter gorm_Open orm =
  (orm, Some (errors_New "store.namespace must only contain letters")).
Proof.
  intros Hin Hr. unfold mysql.configure.
  destruct (store.Options.Database (mysql.options orm)) as [|c d] eqn:Hd;
    [destruct Hin|].
  cbn [String.length Nat.eqb].
  replace (existsb _ _) with true; [reflexivity|].
  symmetry. apply existsb_exists. exists r. split; [exact Hin|]. now rewrite Hr.
Qed.

Lemma configure_accepts (Letter : Z -> bool)
  (gorm_Open : string -> option gorm.Conn * option error) (orm : mysql.ormStore)
  (conn : gorm.Conn) :
  let database :=
    if String.eqb (store.Options.Database (mysql.options orm)) ""
    then mysql.DefaultDatabase else store.Options.Database (mysql.options orm) in
  (forall r, In r (utf8.string_runes database) -> unicode.IsLetter Letter r = true) ->
  (forall source, gorm_Open source = (Some conn, None)) ->
  gorm.broken conn = None ->
  snd (mysql.configure Letter gorm_Open orm) = None /\
  mysql.database (fst (mysql.configure Letter gorm_Open orm)) = database.
Proof.
  intros database Hall Hopen Hb. unfold mysql.configure.
  assert (Hd : (if (String.length (store.Options.Database (mysql.options orm)) =? 0)%nat
                then mysql.DefaultDatabase
                else store.Options.Database (mysql.options orm)) = database).
  { subst database. now destruct (store.Options.Database (mysql.options orm)). }
  rewrite Hd.
  replace (existsb _ _) with false.
  2:{ symmetry. apply not_true_is_false. intros H.
      apply existsb_exists in H as (r & Hin & Hr).
      rewrite (Hall r Hin) in Hr. discriminate. }
  rewrite Hopen.
  unfold gorm.Ping, mysql.initDB, gorm.CreateDatabase, gorm.Use, gorm.CreateTable.
  rewrite Hb.
  destruct (gorm.tables conn !! _); simpl; split; reflexivity.
Qed.

(** C9: when the configured database name holds a rune that is not a
    letter, [configure] fails with the namespace error before it opens any
    connection, leaving the store as it was; so does [Init], and [NewStore]
    yields no store.  A name made of letters only (the default "store" when
    none is given) passes the check, and [configure] succeeds once the
    engine accepts the connection. *)
Theorem C9_database_name_must_be_letters
  (Letter : Z -> bool) (gorm_Open : string -> option gorm.Conn * option error) :
  (forall (orm : mysql.ormStore) (r : Z),
     In r (utf8.string_runes (store.Options.Database (mysql.options orm))) ->
     unicode.IsLetter Letter r = false ->
     mysql.configure Letter gorm_Open orm =
       (orm, Some (errors_New "store.namespace must only contain letters"))) /\
  (forall (orm : mysql.ormStore) (opts : list store.Option) (r : Z),
     In r (utf8.string_runes
             (store.Options.Database (store.apply opts (mysql.options orm)))) ->
     unicode.IsLetter Letter r = false ->
     snd (mysql.Init Letter gorm_Open orm opts) =
       Some (errors_New "store.namespace must only contain letters")) /\
  (forall (opts : list store.Option) (r : Z),
     In r (utf8.string_runes
             (store.Options.Database (store.apply opts store.Options.zero))) ->
     unicode.IsLetter Letter r = false ->
     mysql.NewStore Letter gorm_Open opts = None) /\
  (forall (orm : mysql.ormStore) (conn : gorm.Conn),
     let database :=
       if String.eqb (store.Options.Database (mysql.options orm)) ""
       then mysql.DefaultDatabase else store.Options.Database (mysql.options orm) in
     (forall r, In r (utf8.string_runes database) -> unicode.IsLetter Letter r = true) ->
     (forall source, gorm_Open source = (Some conn, None)) ->
     gorm.broken conn = None ->
     snd (mysql.configure Letter gorm_Open orm) = None /\
     mysql.database (fst (mysql.configure Letter gorm_Open orm)) = database).
Proof.
  split; [|split; [|split]].
  - intros orm r. apply configure_rejects.
  - intros orm opts r Hin Hr. unfold mysql.Init.
    now rewrite (configure_rejects Letter gorm_Open
                   (mysql.mk (store.apply opts (mysql.options orm)) (mysql.db orm)
                      (mysql.database orm) (mysql.table orm)) r).
  - intros opts r Hin Hr. unfold mysql.NewStore.
    now rewrite (configure_rejects Letter gorm_Open
                   (mysql.mk (store.apply opts store.Options.zero) None "" "") r).
  - intros orm conn. apply configure_accepts.
Qed.

Lemma C9_database_name_must_be_letters_witness :
  let open := fun _ : string => (Some (gorm.mkConn ∅ None), @None error) in
  let bad := mysql.mk (store.WithDatabase "my_db" "" store.Options.zero) None "" "" in
  let good := mysql.mk (store.WithDatabase "mydb" "" store.Options.zero) None "" "" in
  mysql.configure (fun _ => false) open bad =
    (bad, Some (errors_New "store.namespace must only contain letters")) /\
  snd (mysql.Init (fun _ => false) open good [store.WithDatabase "db2" ""]) =
    Some (errors_New "store.namespace must only contain letters") /\
  mysql.NewStore (fun _ => false) open [store.WithDatabase "my_db" ""] = None /\
  snd (mysql.configure (fun _ => false) open good) = None.
Proof.
  intros open bad good.
  destruct (C9_database_name_must_be_letters (fun _ => false) open)
    as (H1 & H2 & H3 & H4).
  split; [|split; [|split]].
  - apply (H1 bad 95); [vm_compute; right; right; now left | reflexivity].
  - apply (H2 good [store.WithDatabase "db2" ""] 50);
      [vm_compute; right; right; now left | reflexivity].
  - apply (H3 [store.WithDatabase "my_db" ""] 95);
      [vm_compute; right; right; now left | reflexivity].
  - apply (H4 good (gorm.mkConn ∅ None)).
    + intros r Hr. vm_compute in Hr.
      repeat (destruct Hr as [<-|Hr]; [reflexivity|]). destruct Hr.
    + reflexivity.
    + reflexivity.
Defined.

(** ** Upsert (C6) *)

Lemma find_none_existsb {A : Type} (f : A -> bool) (l : list A) :
  List.find f l = None -> existsb f l = false /\ List.filter f l = [].
Proof.
  induction l as [|x l IH]; simpl; [now split|].
  destruct (f x); [discriminate|]. exact IH.
Qed.

Lemma find_key_stored (k : string) (l : list storeRecord.t) :
  In k (map storeRecord.Key l) ->
  List.find (fun x => String.eqb (storeRecord.Key x) k) l <> None.
Proof.
  intros Hin Hfind. apply in_map_iff in Hin as (y & Hy & Hin).
  apply (find_none _ _ Hfind) in Hin. cbv beta in Hin.
  rewrite Hy, String.eqb_refl in Hin. discriminate.
Qed.

Lemma filter_key_absent (upd : storeRecord.t -> storeRecord.t) (k : string)
  (l : list storeRecord.t) :
  (forall y, storeRecord.Key (upd y) = storeRecord.Key y) ->
  ~ In k (map storeRecord.Key l) ->
  List.filter (fun r => String.eqb (storeRecord.Key r) k) (map upd l) = [].
Proof.
  intros Hk. induction l as [|y l IH]; simpl; [reflexivity|].
  intros Hn. rewrite Hk.
  destruct (String.eqb (storeRecord.Key y) k) eqn:E.
  - apply String.eqb_eq in E. tauto.
  - apply IH. tauto.
Qed.

Lemma filter_key_unique (upd : storeRecord.t -> storeRecord.t) (k : string)
  (l : list storeRecord.t) (x : storeRecord.t) :
  (forall y, storeRecord.Key (upd y) = storeRecord.Key y) ->
  List.NoDup (map storeRecord.Key l) -> In x l -> storeRecord.Key x = k ->
  List.filter (fun r => String.eqb (storeRecord.Key r) k) (map upd l) = [upd x].
Proof.
  intros Hk. induction l as [|y l IH]; simpl; [tauto|].
  intros Hnd Hin Hx. inversion Hnd as [|? ? Hy Hl]; subst.
  rewrite Hk. destruct Hin as [->|Hin].
  - rewrite String.eqb_refl. f_equal. now apply filter_key_absent.
  - destruct (String.eqb (storeRecord.Key y) (storeRecord.Key x)) eqn:E.
    + apply String.eqb_eq in E. exfalso. apply Hy. rewrite E. now apply in_map.
    + now apply IH.
Qed.

Lemma sorted_map (upd : storeRecord.t -> storeRecord.t) (l : list storeRecord.t) :
  (forall y, storeRecord.ID (upd y) = storeRecord.ID y) ->
  StronglySorted row_lt l -> StronglySorted row_lt (map upd l).
Proof.
  intros Hid. induction 1 as [|x l Hs IH Hx]; simpl; constructor; [exact IH|].
  apply List.Forall_map. eapply List.Forall_impl; [|exact Hx].
  intros y Hy. unfold row_lt in *. now rewrite !Hid.
Qed.

Lemma store_table_with_table (orm : mysql.ormStore) (t : gorm.Table_) :
  store_table (with_table orm t) = Some t.
Proof. unfold store_table, with_table. simpl. apply lookup_insert_eq. Qed.

Lemma with_table_twice (orm : mysql.ormStore) (t1 t2 : gorm.Table_) :
  with_table (with_table orm t1) t2 = with_table orm t2.
Proof. unfold with_table. simpl. now rewrite insert_insert_eq. Qed.

(** [set] over a key that is stored takes the update branch: it succeeds and
    rewrites the row of the key *)
Lemma set_result (orm : mysql.ormStore) (t : gorm.Table_) (k : string) (v : bytes) (e : Z) :
  store_table orm = Some t -> table_wf t ->
  In k (map storeRecord.Key (gorm.rows t)) ->
  mysql.set orm (storeRecord.mk 0 k v e) = (with_table orm (update_table t k v e), None).
Proof.
  unfold store_table, with_table, update_table.
  intros Ht (Hnd & Hs & Hids & Hauto) Hin.
  destruct (mysql.db orm) as [conn|] eqn:Hdb; [|discriminate].
  destruct (gorm.broken conn) eqn:Hb; [discriminate|].
  unfold mysql.set. rewrite Hdb. unfold gorm.SelectID. rewrite Hb, Ht.
  cbn [storeRecord.Key storeRecord.ID storeRecord.Value storeRecord.Expiry].
  destruct (List.find _ (gorm.rows t)) as [x|] eqn:Hfind.
  - apply find_some in Hfind as [Hx _].
    assert (Hpos : 0 < storeRecord.ID x).
    { rewrite List.Forall_forall in Hids. apply (Hids x Hx). }
    replace (storeRecord.ID x =? 0) with false by (symmetry; apply Z.eqb_neq; lia).
    unfold gorm.Update. now rewrite Hb, Ht.
  - now apply find_key_stored in Hin.
Qed.

(** the update keeps the table well formed and its keys in place, and leaves
    one row with the key, holding the value and expiry just written *)
Lemma update_table_wf (t : gorm.Table_) (k : string) (v : bytes) (e : Z) :
  table_wf t ->
  table_wf (update_table t k v e) /\
  map storeRecord.Key (gorm.rows (update_table t k v e)) =
    map storeRecord.Key (gorm.rows t) /\
  (In k (map storeRecord.Key (gorm.rows t)) ->
   exists id,
     List.filter (fun r => String.eqb (storeRecord.Key r) k)
       (gorm.rows (update_table t k v e)) = [storeRecord.mk id k v e]).
Proof.
  intros (Hnd & Hs & Hids & Hauto). unfold update_table.
  destruct (List.find _ (gorm.rows t)) as [x|] eqn:Hfind.
  - apply find_some in Hfind as [Hx Hkx]. apply String.eqb_eq in Hkx.
    set (upd := fun y : storeRecord.t =>
                  if storeRecord.ID y =? storeRecord.ID x
                  then storeRecord.mk (storeRecord.ID y) (storeRecord.Key y) v e
                  else y).
    assert (HK : forall y, storeRecord.Key (upd y) = storeRecord.Key y).
    { intros y. unfold upd. now destruct (storeRecord.ID y =? storeRecord.ID x). }
    assert (HI : forall y, storeRecord.ID (upd y) = storeRecord.ID y).
    { intros y. unfold upd. now destruct (storeRecord.ID y =? storeRecord.ID x). }
    assert (HKs : map storeRecord.Key (map upd (gorm.rows t)) =
                  map storeRecord.Key (gorm.rows t)).
    { rewrite map_map. now apply map_ext. }
    split; [|split].
    + repeat split; simpl.
      * now rewrite HKs.
      * now apply sorted_map.
      * apply List.Forall_map. eapply List.Forall_impl; [|exact Hids].
        intros y Hy. cbv beta in *. now rewrite HI.
      * exact Hauto.
    + exact HKs.
    + intros _. exists (storeRecord.ID x). simpl.
      rewrite (filter_key_unique upd k _ x HK Hnd Hx Hkx).
      unfold upd. rewrite Z.eqb_refl. now rewrite Hkx.
  - split; [now repeat split|]. split; [reflexivity|].
    intros Hin. now apply find_key_stored in Hin.
Qed.

Lemma mysql_Write_result (orm : mysql.ormStore) (t : gorm.Table_) (now : time.Time)
  (r : store.Record.t) (opts : list store.WriteOption) :
  store_table orm = Some t -> table_wf t ->
  In (store.Record.Key r) (map storeRecord.Key (gorm.rows t)) ->
  mysql.Write orm now r opts =
  (with_table orm
     (update_table t (store.Record.Key r) (store.Record.Value r)
        (mysql.write_expiry now r (store.apply opts store.WriteOptions.zero))), None).
Proof. intros Ht Hwf Hin. unfold mysql.Write. now apply set_result. Qed.

Lemma in_remove_first (k : string) (l : list storeRecord.t) (x : storeRecord.t) :
  In x (gorm.remove_first k l) -> In x l.
Proof.
  induction l as [|y l IH]; simpl; [tauto|].
  destruct (String.eqb (storeRecord.Key y) k); simpl; intuition.
Qed.

(** [Delete] keeps a table well formed *)
Lemma remove_first_wf (k : string) (t : gorm.Table_) :
  table_wf t ->
  table_wf (gorm.mkTable (gorm.remove_first k (gorm.rows t)) (gorm.autoIncrement t)).
Proof.
  intros (Hnd & Hs & Hids & Hauto). unfold table_wf. simpl.
  split; [|split; [|split; [|exact Hauto]]].
  - clear Hs Hids. induction (gorm.rows t) as [|y l IH]; simpl; [constructor|].
    inversion Hnd as [|? ? Hy Hl]; subst.
    destruct (String.eqb (storeRecord.Key y) k); [exact Hl|].
    simpl. constructor; [|now apply IH].
    intros Hin. apply Hy. apply in_map_iff in Hin as (z & Hz & Hin).
    rewrite <- Hz. apply in_map. now apply in_remove_first in Hin.
  - clear Hnd Hids. induction Hs as [|y l Hs IH Hy]; simpl; [constructor|].
    destruct (String.eqb (storeRecord.Key y) k); [exact Hs|].
    constructor; [exact IH|].
    rewrite List.Forall_forall in *. intros z Hz. apply Hy.
    now apply in_remove_first in Hz.
  - rewrite List.Forall_forall in *. intros z Hz. apply Hids.
    now apply in_remove_first in Hz.
Qed.

Lemma mysql_Write_then_Read (orm : mysql.ormStore) (t : gorm.Table_) (now0 : time.Time)
  (r : store.Record.t) (wopts : list store.WriteOption) :
  store_table orm = Some t -> table_wf t ->
  In (store.Record.Key r) (map storeRecord.Key (gorm.rows t)) ->
  let e := mysql.write_expiry now0 r (store.apply wopts store.WriteOptions.zero) in
  let orm' := fst (mysql.Write orm now0 r wopts) in
  snd (mysql.Write orm now0 r wopts) = None /\
  (exists t', store_table orm' = Some t' /\ table_wf t' /\
              map storeRecord.Key (gorm.rows t') = map storeRecord.Key (gorm.rows t)) /\
  forall (now1 : time.Time) (ropts : list store.ReadOption),
    store.ReadOptions.Prefix (store.apply ropts store.ReadOptions.zero) = false ->
    store.ReadOptions.Suffix (store.apply ropts store.ReadOptions.zero) = false ->
    e = 0 \/ now1 <= time.Unix e 0 ->
    mysql.Read orm' now1 (store.Record.Key r) ropts =
    ([store.Record.mk (store.Record.Key r) (store.Record.Value r) 0 (time.Unix e 0)],
     [], None).
Proof.
  intros Ht Hwf Hin e orm'. subst orm'.
  rewrite (mysql_Write_result orm t now0 r wopts Ht Hwf Hin). fold e. cbn [fst snd].
  set (t' := update_table t (store.Record.Key r) (store.Record.Value r) e).
  destruct (update_table_wf t (store.Record.Key r) (store.Record.Value r) e Hwf)
    as (Hwf' & Hkeys & Hfil).
  destruct (Hfil Hin) as [id Hrow]. fold t' in Hwf', Hkeys, Hrow.
  assert (Ht' : store_table (with_table orm t') = Some t')
    by apply store_table_with_table.
  split; [reflexivity|]. split; [now exists t'|].
  intros now1 ropts Hp Hs Hlive.
  rewrite (mysql_Read_spec (with_table orm t') now1 _ ropts t' Ht' (proj1 (proj2 Hwf'))).
  cbv zeta. rewrite Hp, Hs.
  assert (Hm : List.filter (read_matches (store.Record.Key r) false false) (gorm.rows t') =
               [storeRecord.mk id (store.Record.Key r) (store.Record.Value r) e])
    by exact Hrow.
  rewrite !Hm.
  assert (Hl : live_row now1 (storeRecord.mk id (store.Record.Key r)
                                (store.Record.Value r) e) = true).
  { unfold live_row, mysql.expired, time.Before. simpl.
    destruct Hlive as [->|Hle]; [reflexivity|].
    replace (time.Unix e 0 <? now1) with false by (symmetry; apply Z.ltb_ge; lia).
    now rewrite andb_false_r. }
  assert (Hd : mysql.expired now1 (storeRecord.mk id (store.Record.Key r)
                                     (store.Record.Value r) e) = false).
  { unfold live_row in Hl. now apply negb_true_iff in Hl. }
  set (row := storeRecord.mk id (store.Record.Key r) (store.Record.Value r) e) in *.
  assert (HL1 : List.filter (live_row now1) [row] = [row]) by (simpl; now rewrite Hl).
  assert (HD1 : List.filter (mysql.expired now1) [row] = []) by (simpl; now rewrite Hd).
  destruct (store.ReadOptions.Limit _ =? 0)%N eqn:HL.
  - now rewrite HL1, HD1.
  - apply N.eqb_neq in HL.
    destruct (N.to_nat (store.ReadOptions.Limit (store.apply ropts store.ReadOptions.zero)))
      as [|n] eqn:En; [lia|].
    cbn [firstn]. replace (firstn n []) with (@nil storeRecord.t) by now destruct n.
    now rewrite HL1, HD1.
Qed.

Lemma write_record_key_value (now : time.Time) (record : store.Record.t)
  (opts : list store.WriteOption) (options : store.WriteOptions.t) :
  store.Record.Key (rkv.write_record now record opts options) = store.Record.Key record /\
  store.Record.Value (rkv.write_record now record opts options) = store.Record.Value record.
Proof.
  unfold rkv.write_record.
  destruct (0 <? length opts)%nat; [|now split].
  destruct (negb (time.IsZero (store.WriteOptions.Expiry options)));
    destruct (negb (store.WriteOptions.TTL options =? 0)); now split.
Qed.

Lemma rkv_Write_then_Read (r : rkv.t) (now0 : time.Time) (rec : store.Record.t)
  (wopts : list store.WriteOption) :
  redis.broken (rkv.client r) = None ->
  let r' := fst (fst (rkv.Write r now0 rec wopts)) in
  let rec' := snd (fst (rkv.Write r now0 rec wopts)) in
  snd (rkv.Write r now0 rec wopts) = None /\
  forall (now1 : time.Time) (ropts : list store.ReadOption),
    store.ReadOptions.Prefix (rkv.read_options r' ropts) = false ->
    store.ReadOptions.Suffix (rkv.read_options r' ropts) = false ->
    store.ReadOptions.Table (rkv.read_options r' ropts) =
      store.WriteOptions.Table (rkv.write_options r wopts) ->
    store.Record.TTL rec' <= 0 \/ now1 < time.Add now0 (store.Record.TTL rec') ->
    exists d,
      rkv.Read r' now1 (store.Record.Key rec) ropts =
      ([store.Record.mk (store.Record.Key rec) (store.Record.Value rec) d (time.Add now1 d)],
       None).
Proof.
  intros Hb r' rec'. subst r' rec'. unfold rkv.Write, redis.Set_. rewrite Hb.
  cbn [fst snd].
  set (options := rkv.write_options r wopts).
  set (rec' := rkv.write_record now0 rec wopts options).
  destruct (write_record_key_value now0 rec wopts options) as [HK HV].
  fold rec' in HK, HV.
  split; [reflexivity|].
  intros now1 ropts Hp Hs Htab Hlive.
  rewrite (rkv_Read_exact _ now1 _ ropts Hp Hs).
  rewrite rkv_read_one by reflexivity.
  rewrite Htab. cbn [rkv.client]. rewrite <- HK.
  unfold redis.find. cbn [redis.keyspace]. rewrite lookup_insert_eq.
  replace (redis.live now1 _) with true.
  - eexists. cbn [redis.val]. rewrite HV. reflexivity.
  - symmetry. unfold redis.live. cbn [redis.expireAt].
    destruct (0 <? store.Record.TTL rec') eqn:E; [|reflexivity].
    apply Z.ltb_lt in E. destruct Hlive as [Hle|Hlt]; [lia|].
    now apply Z.ltb_lt.
Qed.

(** C6, as stated, fails on the relational adapter, which keeps the expiry
    in whole seconds.  The record carries an Expiry and no TTL and is
    written without options, so its resolved expiry is that Expiry; the key
    is already stored, so the Write is the second Write of the claim.  With
    the Expiry 1.5s after the Write, the stored expiry is one second after
    it, and a Read 1.2s after the Write, before the resolved expiry, returns
    no record. *)
Lemma C6_counterexample :
  ~ (forall (orm : mysql.ormStore) (t : gorm.Table_) (now0 now1 : time.Time)
       (k : string) (v : bytes) (E : time.Time),
       store_table orm = Some t -> table_wf t ->
       In k (map storeRecord.Key (gorm.rows t)) ->
       time.IsZero E = false -> now0 <= now1 -> now1 < E ->
       let w := mysql.Write orm now0 (store.Record.mk k v 0 E) [] in
       snd w = None ->
       map store.Record.Value (fst (fst (mysql.Read (fst w) now1 k []))) = [v]).
Proof.
  intros H.
  assert (Hwf : table_wf (gorm.mkTable [storeRecord.mk 1 "k" sample_value 0] 2))
    by solve_table_wf.
  specialize (H (sample_orm [storeRecord.mk 1 "k" sample_value 0] 2)
                (gorm.mkTable [storeRecord.mk 1 "k" sample_value 0] 2)
                sample_now (time.Add sample_now (1200 * time.Millisecond))
                "k" (list_byte_of_string "w")
                (time.Add sample_now (1500 * time.Millisecond))
                eq_refl Hwf).
  vm_compute in H.
  assert (Hin : "k" = "k" \/ False) by now left.
  specialize (H Hin eq_refl).
  assert (Hle : (fun c : comparison => c = Gt -> False) Lt) by discriminate.
  specialize (H Hle eq_refl eq_refl). discriminate H.
Qed.

(** C6, amended: after a [Write] of (k, v) on the cache adapter, or on the
    relational adapter over a key that is already stored (a second Write of
    the key), the Write succeeds and an exact-match [Read] of k returns
    exactly one record, for k, carrying v, as long as the expiry handed to
    the engine has not passed: on the relational adapter the resolved
    expiry cut down to whole seconds, on the cache adapter the time of the
    Write plus the TTL of the record as [Write] leaves it, and none when
    that TTL is not positive.  The relational adapter keeps the table well
    formed with the same keys, one row per key, so the same holds after
    every further Write. *)
Theorem C6_read_after_write :
  (forall (orm : mysql.ormStore) (t : gorm.Table_) (now0 : time.Time)
     (r : store.Record.t) (wopts : list store.WriteOption),
     store_table orm = Some t -> table_wf t ->
     In (store.Record.Key r) (map storeRecord.Key (gorm.rows t)) ->
     let e := mysql.write_expiry now0 r (store.apply wopts store.WriteOptions.zero) in
     let orm' := fst (mysql.Write orm now0 r wopts) in
     snd (mysql.Write orm now0 r wopts) = None /\
     (exists t', store_table orm' = Some t' /\ table_wf t' /\
                 map storeRecord.Key (gorm.rows t') = map storeRecord.Key (gorm.rows t)) /\
     forall (now1 : time.Time) (ropts : list store.ReadOption),
       store.ReadOptions.Prefix (store.apply ropts store.ReadOptions.zero) = false ->
       store.ReadOptions.Suffix (store.apply ropts store.ReadOptions.zero) = false ->
       e = 0 \/ now1 <= time.Unix e 0 ->
       mysql.Read orm' now1 (store.Record.Key r) ropts =
       ([store.Record.mk (store.Record.Key r) (store.Record.Value r) 0 (time.Unix e 0)],
        [], None)) /\
  (forall (r : rkv.t) (now0 : time.Time) (rec : store.Record.t)
     (wopts : list store.WriteOption),
     redis.broken (rkv.client r) = None ->
     let r' := fst (fst (rkv.Write r now0 rec wopts)) in
     let rec' := snd (fst (rkv.Write r now0 rec wopts)) in
     snd (rkv.Write r now0 rec wopts) = None /\
     forall (now1 : time.Time) (ropts : list store.ReadOption),
       store.ReadOptions.Prefix (rkv.read_options r' ropts) = false ->
       store.ReadOptions.Suffix (rkv.read_options r' ropts) = false ->
       store.ReadOptions.Table (rkv.read_options r' ropts) =
         store.WriteOptions.Table (rkv.write_options r wopts) ->
       store.Record.TTL rec' <= 0 \/ now1 < time.Add now0 (store.Record.TTL rec') ->
       exists d,
         rkv.Read r' now1 (store.Record.Key rec) ropts =
         ([store.Record.mk (store.Record.Key rec) (store.Record.Value rec) d
             (time.Add now1 d)], None)).
Proof.
  split.
  - exact mysql_Write_then_Read.
  - exact rkv_Write_then_Read.
Qed.

Lemma C6_read_after_write_witness :
  let one := list_byte_of_string "one" in
  let two := list_byte_of_string "two" in
  let orm0 := sample_orm [storeRecord.mk 1 "k" sample_value 0] 2 in
  let orm1 := fst (mysql.Write orm0 sample_now (store.Record.mk "k" one 0 0) []) in
  let orm2 := fst (mysql.Write orm1 sample_now (store.Record.mk "k" two 0 0) []) in
  let r1 := fst (fst (rkv.Write (sample_rkv []) sample_now
                        (store.Record.mk "k" one 0 0) [])) in
  let r2 := fst (fst (rkv.Write r1 sample_now (store.Record.mk "k" two 0 0) [])) in
  mysql.Read orm2 sample_now "k" [] =
    ([store.Record.mk "k" two 0 (time.Unix 0 0)], [], None) /\
  exists d, rkv.Read r2 sample_now "k" [] =
              ([store.Record.mk "k" two d (time.Add sample_now d)], None).
Proof.
  intros one two orm0 orm1 orm2 r1 r2.
  destruct C6_read_after_write as [HM HR]. split.
  - assert (Hwf : table_wf (gorm.mkTable [storeRecord.mk 1 "k" one 0] 2))
      by solve_table_wf.
    destruct (HM orm1 (gorm.mkTable [storeRecord.mk 1 "k" one 0] 2) sample_now
                (store.Record.mk "k" two 0 0) [] eq_refl Hwf) as (_ & _ & Hread).
    + now left.
    + apply (Hread sample_now []); [reflexivity | reflexivity | left; reflexivity].
  - destruct (HR r1 sample_now (store.Record.mk "k" two 0 0) [] eq_refl) as [_ Hread].
    apply (Hread sample_now []);
      [reflexivity | reflexivity | reflexivity | left; vm_compute; discriminate].
Defined.

(** ** Namespaces (C8) *)












(** * Further properties of the adapters *)

(** ** The cache adapter *)

Lemma append_cancel_l (t a b : string) : t +:+ a = t +:+ b -> a = b.
Proof.
  intros H. apply list_ascii_of_string_inj.
  apply (f_equal list_ascii_of_string) in H.
  rewrite !list_ascii_of_string_append in H.
  now apply app_inv_head in H.
Qed.

Lemma live_keys_in (c : redis.Client) (now : time.Time) (k : string) :
  In k (redis.live_keys c now) <-> exists e, redis.find c now k = Some e.
Proof.
  unfold redis.live_keys, redis.find. rewrite in_map_iff. split.
  - intros ([k' e] & Hk & Hin). simpl in Hk. subst k'.
    apply filter_In in Hin as [Hin Hlive]. simpl in Hlive.
    apply list_elem_of_In, elem_of_map_to_list in Hin.
    exists e. now rewrite Hin, Hlive.
  - intros [e He]. destruct (redis.keyspace c !! k) as [e'|] eqn:Hk; [|discriminate].
    destruct (redis.live now e') eqn:Hl; [|discriminate].
    exists (k, e'). split; [reflexivity|]. apply filter_In. split; [|exact Hl].
    now apply list_elem_of_In, elem_of_map_to_list.
Qed.

Lemma read_records_missing (c : redis.Client) (now : time.Time) (key : string)
  (keys : list string) (acc : list store.Record.t) (k : string) :
  redis.broken c = None -> In k keys -> redis.find c now k = None ->
  rkv.read_records c now key keys acc = ([], Some ErrNotFound).
Proof.
  intros Hb Hin Hk. revert acc. induction keys as [|x keys IH]; intros acc; [destruct Hin|].
  simpl. unfold redis.Get_Bytes, redis.TTL. rewrite Hb.
  destruct (redis.find c now x) as [e|] eqn:Hx; [|reflexivity].
  destruct Hin as [->|Hin]; [congruence|].
  destruct (redis.expireAt e); now apply IH.
Qed.

Lemma read_records_present (c : redis.Client) (now : time.Time) (key : string)
  (keys : list string) (acc : list store.Record.t) :
  redis.broken c = None ->
  (forall k, In k keys -> exists e, redis.find c now k = Some e) ->
  rkv.read_records c now key keys acc =
  (acc ++ map (record_of_key c now key) keys, None).
Proof.
  intros Hb. revert acc. induction keys as [|x keys IH]; intros acc Hall.
  - simpl. now rewrite app_nil_r.
  - destruct (Hall x (or_introl eq_refl)) as [e He].
    cbn [rkv.read_records]. unfold redis.Get_Bytes. rewrite Hb, He.
    assert (HT : redis.TTL c now x = (fst (redis.TTL c now x), None)).
    { unfold redis.TTL. rewrite Hb, He. now destruct (redis.expireAt e). }
    rewrite HT. rewrite IH by (intros k Hk; apply Hall; now right).
    rewrite <- app_assoc. simpl. unfold record_of_key at 2. now rewrite He.
Qed.

Lemma glob_suffix (p k : string) :
  pattern.glob_plain p = true -> pattern.glob ("*" +:+ p) k = has_suffix p k.
Proof.
  intros H. unfold pattern.glob. rewrite list_ascii_of_string_append.
  change (list_ascii_of_string "*") with ["*"%char]. simpl app.
  change (pattern.glob_tokens None ("*"%char :: list_ascii_of_string p))
    with (pattern.TMany :: pattern.glob_tokens None (list_ascii_of_string p)).
  rewrite <- (app_nil_r (list_ascii_of_string p)) at 1.
  rewrite glob_tokens_plain by exact H. simpl pattern.glob_tokens.
  rewrite app_nil_r. apply tmatch_many_lits.
Qed.

(** X1: [Delete] on a working connection never fails; afterwards an exact-match
    [Read] of the key under the same table returns NotFound, an exact-match
    [Read] of any other key is unchanged, and deleting a key that is not
    stored leaves the keyspace as it was. *)
Theorem rkv_Delete_removes_the_entry
  (r : rkv.t) (now : time.Time) (key : string)
  (dopts : list store.DeleteOption) (ropts : list store.ReadOption) :
  redis.broken (rkv.client r) = None ->
  store.ReadOptions.Prefix (rkv.read_options r ropts) = false ->
  store.ReadOptions.Suffix (rkv.read_options r ropts) = false ->
  store.ReadOptions.Table (rkv.read_options r ropts) =
    store.DeleteOptions.Table (rkv.delete_options r dopts) ->
  let r' := fst (rkv.Delete r key dopts) in
  snd (rkv.Delete r key dopts) = None /\
  rkv.Read r' now key ropts = ([], Some ErrNotFound) /\
  (forall key', key' <> key -> rkv.Read r' now key' ropts = rkv.Read r now key' ropts) /\
  (redis.keyspace (rkv.client r) !!
     (store.DeleteOptions.Table (rkv.delete_options r dopts) +:+ key) = None ->
   redis.keyspace (rkv.client r') = redis.keyspace (rkv.client r)).
Proof.
  intros Hb Hp Hs Ht r'. subst r'. unfold rkv.Delete, redis.Del. rewrite Hb.
  cbn [fst snd].
  set (r' := rkv.mk _ _).
  assert (Ho : rkv.read_options r' ropts = rkv.read_options r ropts) by reflexivity.
  split; [reflexivity|]. split; [|split].
  - rewrite (rkv_Read_exact r' now key ropts) by (rewrite Ho; assumption).
    rewrite rkv_read_one by reflexivity. rewrite Ho, Ht.
    unfold redis.find. subst r'. cbn [rkv.client redis.keyspace].
    now rewrite lookup_delete_eq.
  - intros key' Hne.
    rewrite (rkv_Read_exact r' now key' ropts) by (rewrite Ho; assumption).
    rewrite (rkv_Read_exact r now key' ropts Hp Hs). rewrite Ho.
    rewrite !rkv_read_one by (try exact Hb; reflexivity).
    unfold redis.TTL, redis.find. subst r'. cbn [rkv.client redis.keyspace redis.broken].
    rewrite Hb, Ht. rewrite lookup_delete_ne; [reflexivity|].
    intros Heq. apply Hne. symmetry. now apply append_cancel_l in Heq.
  - intros Habs. subst r'. cbn [rkv.client redis.keyspace]. now apply delete_id.
Qed.

Lemma rkv_Delete_removes_the_entry_witness :
  let r := sample_rkv ["a"; "b"] in
  rkv.Read (fst (rkv.Delete r "a" [])) sample_now "a" [] = ([], Some ErrNotFound) /\
  rkv.Read (fst (rkv.Delete r "a" [])) sample_now "b" [] = rkv.Read r sample_now "b" [].
Proof.
  intros r.
  destruct (rkv_Delete_removes_the_entry r sample_now "a" [] [] eq_refl eq_refl eq_refl
              eq_refl) as (_ & H1 & H2 & _).
  split; [exact H1|]. apply H2. discriminate.
Defined.

(** X2: A record written with a positive TTL is gone once the TTL has elapsed:
    from the instant now + TTL on, an exact-match [Read] of its key returns
    NotFound. *)
Theorem rkv_Read_after_the_ttl
  (r : rkv.t) (now0 now1 : time.Time) (rec : store.Record.t)
  (wopts : list store.WriteOption) (ropts : list store.ReadOption) :
  redis.broken (rkv.client r) = None ->
  let r' := fst (fst (rkv.Write r now0 rec wopts)) in
  let rec' := snd (fst (rkv.Write r now0 rec wopts)) in
  store.ReadOptions.Prefix (rkv.read_options r' ropts) = false ->
  store.ReadOptions.Suffix (rkv.read_options r' ropts) = false ->
  store.ReadOptions.Table (rkv.read_options r' ropts) =
    store.WriteOptions.Table (rkv.write_options r wopts) ->
  0 < store.Record.TTL rec' ->
  time.Add now0 (store.Record.TTL rec') <= now1 ->
  rkv.Read r' now1 (store.Record.Key rec) ropts = ([], Some ErrNotFound).
Proof.
  intros Hb r' rec'. subst r' rec'. unfold rkv.Write, redis.Set_. rewrite Hb.
  cbn [fst snd].
  set (options := rkv.write_options r wopts).
  set (rec' := rkv.write_record now0 rec wopts options).
  destruct (write_record_key_value now0 rec wopts options) as [HK _].
  fold rec' in HK.
  intros Hp Hs Htab Hpos Hle.
  rewrite (rkv_Read_exact _ now1 _ ropts Hp Hs).
  rewrite rkv_read_one by reflexivity.
  rewrite Htab. cbn [rkv.client]. rewrite <- HK.
  unfold redis.find. cbn [redis.keyspace]. rewrite lookup_insert_eq.
  unfold redis.live. cbn [redis.expireAt].
  apply Z.ltb_lt in Hpos. rewrite Hpos.
  replace (now1 <? time.Add now0 (store.Record.TTL rec')) with false; [reflexivity|].
  symmetry. now apply Z.ltb_ge.
Qed.

Lemma rkv_Read_after_the_ttl_witness :
  let rec := store.Record.mk "test write" (list_byte_of_string "test write")
               (5 * time.Second) 0 in
  rkv.Read (fst (fst (rkv.Write (sample_rkv []) sample_now rec [])))
    (time.Add sample_now (5 * time.Second)) "test write" [] = ([], Some ErrNotFound).
Proof.
  intros rec.
  apply (rkv_Read_after_the_ttl (sample_rkv []) sample_now
           (time.Add sample_now (5 * time.Second)) rec [] []);
    reflexivity.
Defined.

Lemma rkv_eta (r : rkv.t) : rkv.mk (rkv.options r) (rkv.client r) = r.
Proof. now destruct r. Qed.

(** X3: On a broken connection [Write], [Delete] and [List] return the engine's
    error and leave the store as it was. *)
Theorem rkv_broken_connection
  (r : rkv.t) (now : time.Time) (rec : store.Record.t) (key m : string)
  (wopts : list store.WriteOption) (dopts : list store.DeleteOption)
  (lopts : list store.ListOption) :
  redis.broken (rkv.client r) = Some m ->
  fst (fst (rkv.Write r now rec wopts)) = r /\
  snd (rkv.Write r now rec wopts) = Some (engine_error m) /\
  rkv.Delete r key dopts = (r, Some (engine_error m)) /\
  rkv.List r now lopts = ([], Some (engine_error m)).
Proof.
  intros Hb. unfold rkv.Write, rkv.Delete, rkv.List, redis.Set_, redis.Del, redis.Keys.
  rewrite Hb. cbn [fst snd]. rewrite rkv_eta. now repeat split.
Qed.

Lemma rkv_broken_connection_witness :
  let r := rkv.mk store.Options.zero (redis.mkClient ∅ (Some "EOF")) in
  fst (fst (rkv.Write r sample_now (store.Record.mk "k" sample_value 0 0) [])) = r /\
  snd (rkv.Write r sample_now (store.Record.mk "k" sample_value 0 0) []) =
    Some (engine_error "EOF") /\
  rkv.Delete r "k" [] = (r, Some (engine_error "EOF")) /\
  rkv.List r sample_now [] = ([], Some (engine_error "EOF")).
Proof.
  intros r.
  apply (rkv_broken_connection r sample_now (store.Record.mk "k" sample_value 0 0)
           "k" "EOF" [] [] []).
  reflexivity.
Defined.

(** X4: [Write] never reads the record's own Expiry: two records that differ
    only in Expiry leave the same store and the same error, and a record
    with an Expiry but no TTL, written without options, is stored with no
    expiry. *)
Theorem rkv_Write_never_reads_record_Expiry
  (r : rkv.t) (now : time.Time) (k : string) (v : bytes) (ttl : time.Duration)
  (E1 E2 : time.Time) (opts : list store.WriteOption) :
  fst (fst (rkv.Write r now (store.Record.mk k v ttl E1) opts)) =
    fst (fst (rkv.Write r now (store.Record.mk k v ttl E2) opts)) /\
  snd (rkv.Write r now (store.Record.mk k v ttl E1) opts) =
    snd (rkv.Write r now (store.Record.mk k v ttl E2) opts) /\
  (redis.broken (rkv.client r) = None ->
   redis.keyspace (rkv.client (fst (fst (rkv.Write r now (store.Record.mk k v 0 E1) []))))
     !! (store.Options.Table (rkv.options r) +:+ k) = Some (redis.mkEntry v None)).
Proof.
  split; [|split].
  - unfold rkv.Write, rkv.write_record, redis.Set_. cbn [store.Record.Key
      store.Record.Value store.Record.TTL].
    destruct (0 <? length opts)%nat,
      (negb (time.IsZero (store.WriteOptions.Expiry (rkv.write_options r opts)))),
      (negb (store.WriteOptions.TTL (rkv.write_options r opts) =? 0)),
      (redis.broken (rkv.client r)); reflexivity.
  - unfold rkv.Write, rkv.write_record, redis.Set_. cbn [store.Record.Key
      store.Record.Value store.Record.TTL].
    destruct (0 <? length opts)%nat,
      (negb (time.IsZero (store.WriteOptions.Expiry (rkv.write_options r opts)))),
      (negb (store.WriteOptions.TTL (rkv.write_options r opts) =? 0)),
      (redis.broken (rkv.client r)); reflexivity.
  - intros Hb. unfold rkv.Write, redis.Set_. rewrite Hb. cbn.
    apply lookup_insert_eq.
Qed.

Lemma rkv_Write_never_reads_record_Expiry_witness :
  redis.keyspace
    (rkv.client (fst (fst (rkv.Write (sample_rkv []) sample_now
                             (store.Record.mk "k" sample_value 0
                                (time.Add sample_now time.Second)) []))))
    !! "k" = Some (redis.mkEntry sample_value None).
Proof.
  apply (proj2 (proj2 (rkv_Write_never_reads_record_Expiry (sample_rkv []) sample_now "k"
                         sample_value 0 (time.Add sample_now time.Second) 0 []))).
  reflexivity.
Defined.

(** X5: Whatever the flags, [Read] returns NotFound when the namespaced key
    itself is not stored (or has expired), even if other keys match the
    prefix or the suffix: the key itself is always among the keys read. *)
Theorem rkv_Read_needs_the_key_itself
  (r : rkv.t) (now : time.Time) (key : string) (opts : list store.ReadOption) :
  redis.broken (rkv.client r) = None ->
  redis.find (rkv.client r) now
    (store.ReadOptions.Table (rkv.read_options r opts) +:+ key) = None ->
  rkv.Read r now key opts = ([], Some ErrNotFound).
Proof.
  intros Hb Hk. unfold rkv.Read, redis.Keys. rewrite Hb.
  set (rkey := store.ReadOptions.Table (rkv.read_options r opts) +:+ key) in *.
  destruct (store.ReadOptions.Prefix _), (store.ReadOptions.Suffix _);
    (apply (read_records_missing _ _ _ _ _ rkey Hb); [|exact Hk]);
    apply list_elem_of_In, elem_of_elements; set_solver.
Qed.

Lemma rkv_Read_needs_the_key_itself_witness :
  rkv.Read (sample_rkv ["ab"; "abc"]) sample_now "a" [store.WithReadPrefix] =
  ([], Some ErrNotFound).
Proof.
  apply (rkv_Read_needs_the_key_itself (sample_rkv ["ab"; "abc"]) sample_now "a"
           [store.WithReadPrefix]); reflexivity.
Defined.

Lemma has_prefix_refl (s : string) : has_prefix s s = true.
Proof.
  unfold has_prefix. induction s as [|c s IH]; simpl; [reflexivity|].
  destruct (ascii_dec c c); [exact IH|congruence].
Qed.

(** X6: With the Prefix flag alone, a wildcard-free key that is itself stored
    yields one record per live storage key that starts with the namespaced
    key, each carrying the value stored under that key. *)
Theorem rkv_Read_prefix_records
  (r : rkv.t) (now : time.Time) (key : string) (opts : list store.ReadOption) :
  let rkey := store.ReadOptions.Table (rkv.read_options r opts) +:+ key in
  redis.broken (rkv.client r) = None ->
  store.ReadOptions.Prefix (rkv.read_options r opts) = true ->
  store.ReadOptions.Suffix (rkv.read_options r opts) = false ->
  pattern.glob_plain rkey = true ->
  (exists e, redis.find (rkv.client r) now rkey = Some e) ->
  exists recs,
    rkv.Read r now key opts = (recs, None) /\
    length recs =
      length (List.filter (has_prefix rkey) (redis.live_keys (rkv.client r) now)) /\
    forall k e, redis.find (rkv.client r) now k = Some e -> has_prefix rkey k = true ->
                exists rec, In rec recs /\ store.Record.Value rec = redis.val e.
Proof.
  intros rkey Hb Hp Hs Hplain Hself. unfold rkv.Read, redis.Keys.
  rewrite Hb, Hp, Hs. fold rkey.
  rewrite (filter_ext _ _ (fun k => glob_prefix rkey k Hplain)).
  set (pkeys := List.filter (has_prefix rkey) (redis.live_keys (rkv.client r) now)).
  set (keys := ({[rkey]} ∪ list_to_set pkeys : gset string)).
  assert (Hin : forall k, In k (elements keys) <-> In k pkeys).
  { intros k. rewrite <- !list_elem_of_In, elem_of_elements. subst keys.
    rewrite elem_of_union, elem_of_singleton, elem_of_list_to_set.
    split; [|tauto]. intros [->|H]; [|exact H].
    apply list_elem_of_In, filter_In. split; [now apply live_keys_in|].
    apply has_prefix_refl. }
  assert (Hlive : forall k, In k (elements keys) ->
                            exists e, redis.find (rkv.client r) now k = Some e).
  { intros k Hk. apply Hin, filter_In in Hk as [Hk _]. now apply live_keys_in. }
  rewrite (read_records_present _ _ _ _ [] Hb Hlive). simpl app.
  eexists. split; [reflexivity|]. split.
  - rewrite length_map. apply Permutation_length. apply NoDup_Permutation.
    + apply NoDup_elements.
    + apply NoDup_ListNoDup, List.NoDup_filter, live_keys_NoDup.
    + intros k. rewrite !list_elem_of_In. apply Hin.
  - intros k e He Hpre. exists (record_of_key (rkv.client r) now key k). split.
    + apply in_map, Hin, filter_In. split; [|exact Hpre].
      apply live_keys_in. now exists e.
    + unfold record_of_key. simpl. now rewrite He.
Qed.

Lemma rkv_Read_prefix_records_witness :
  exists recs,
    rkv.Read (sample_rkv ["a"; "ab"; "b"]) sample_now "a" [store.WithReadPrefix] =
      (recs, None) /\
    length recs = 2%nat.
Proof.
  destruct (rkv_Read_prefix_records (sample_rkv ["a"; "ab"; "b"]) sample_now "a"
              [store.WithReadPrefix] eq_refl eq_refl eq_refl eq_refl)
    as (recs & HR & HL & _).
  - now exists (redis.mkEntry sample_value None).
  - exists recs. split; [exact HR|]. rewrite HL. reflexivity.
Defined.

(** X7: What [List] returns over a working connection: never an error and no
    key twice; with a wildcard-free prefix, exactly the live keys that start
    with it; with no prefix and a wildcard-free suffix, exactly the live
    keys that end with it; with neither, every live key.  Keys are storage
    keys, compared as stored. *)
Theorem rkv_List_contents
  (r : rkv.t) (now : time.Time) (opts : list store.ListOption) :
  redis.broken (rkv.client r) = None ->
  let o := rkv.list_options r opts in
  let live := redis.live_keys (rkv.client r) now in
  exists keys,
    rkv.List r now opts = (keys, None) /\
    List.NoDup keys /\
    (store.ListOptions.Prefix o <> "" ->
     pattern.glob_plain (store.ListOptions.Prefix o) = true ->
     forall k, In k keys <-> In k live /\ has_prefix (store.ListOptions.Prefix o) k = true) /\
    (store.ListOptions.Prefix o = "" -> store.ListOptions.Suffix o <> "" ->
     pattern.glob_plain (store.ListOptions.Suffix o) = true ->
     forall k, In k keys <-> In k live /\ has_suffix (store.ListOptions.Suffix o) k = true) /\
    (store.ListOptions.Prefix o = "" -> store.ListOptions.Suffix o = "" -> keys = live).
Proof.
  intros Hb o live. unfold rkv.List, redis.Keys. rewrite Hb. fold o. fold live.
  eexists. split; [reflexivity|]. split; [apply List.NoDup_filter, live_keys_NoDup|].
  split; [|split].
  - intros Hp Hplain k. apply String.eqb_neq in Hp. rewrite Hp. simpl.
    rewrite filter_In. now rewrite glob_prefix.
  - intros Hp Hs Hplain k. rewrite Hp. apply String.eqb_neq in Hs. rewrite Hs. simpl.
    rewrite filter_In. now rewrite glob_suffix.
  - intros -> ->. simpl. apply filter_all.
    apply List.Forall_forall. intros k _. apply glob_star.
Qed.

Lemma rkv_List_contents_witness :
  exists keys,
    rkv.List (sample_rkv ["a1"; "1a"; "b1"]) sample_now [store.WithListSuffix "1"] =
      (keys, None) /\
    (In "b1" keys /\ ~ In "1a" keys).
Proof.
  destruct (rkv_List_contents (sample_rkv ["a1"; "1a"; "b1"]) sample_now
              [store.WithListSuffix "1"] eq_refl) as (keys & HL & _ & _ & HS & _).
  exists keys. split; [exact HL|].
  assert (H1 : "1" <> "") by discriminate.
  specialize (HS eq_refl H1 eq_refl). split.
  - apply HS. split; [vm_compute; right; right; now left | reflexivity].
  - intros Hin. apply HS in Hin as [_ Hin]. discriminate Hin.
Defined.

(** X8: [List] is not scoped to a table: a key written under one table is
    listed, under its storage name table ++ key, by a [List] without prefix
    or suffix whatever table that [List] names. *)
Theorem rkv_List_is_not_scoped
  (r : rkv.t) (now0 now1 : time.Time) (rec : store.Record.t)
  (wopts : list store.WriteOption) (lopts : list store.ListOption) :
  redis.broken (rkv.client r) = None ->
  let r' := fst (fst (rkv.Write r now0 rec wopts)) in
  let rec' := snd (fst (rkv.Write r now0 rec wopts)) in
  store.ListOptions.Prefix (rkv.list_options r' lopts) = "" ->
  store.ListOptions.Suffix (rkv.list_options r' lopts) = "" ->
  store.Record.TTL rec' <= 0 \/ now1 < time.Add now0 (store.Record.TTL rec') ->
  In (store.WriteOptions.Table (rkv.write_options r wopts) +:+ store.Record.Key rec)
     (fst (rkv.List r' now1 lopts)).
Proof.
  intros Hb r' rec' Hp Hs Hlive.
  assert (Hb' : redis.broken (rkv.client r') = None).
  { subst r'. unfold rkv.Write, redis.Set_. now rewrite Hb. }
  destruct (rkv_List_contents r' now1 lopts Hb') as (keys & HL & _ & _ & _ & Hall).
  rewrite HL, (Hall Hp Hs). cbn [fst].
  apply live_keys_in. subst r' rec'. unfold rkv.Write, redis.Set_ in *.
  rewrite Hb in *. cbn [fst snd rkv.client] in *.
  destruct (write_record_key_value now0 rec wopts (rkv.write_options r wopts)) as [HK _].
  rewrite <- HK. unfold redis.find. cbn [redis.keyspace]. rewrite lookup_insert_eq.
  eexists. replace (redis.live now1 _) with true; [reflexivity|].
  symmetry. unfold redis.live. cbn [redis.expireAt].
  destruct (0 <? _) eqn:E; [|reflexivity].
  apply Z.ltb_lt in E. destruct Hlive as [Hle|Hlt]; [lia|]. now apply Z.ltb_lt.
Qed.

Lemma rkv_List_is_not_scoped_witness :
  In "t1k"
    (fst (rkv.List
            (fst (fst (rkv.Write (sample_rkv []) sample_now
                         (store.Record.mk "k" sample_value 0 0)
                         [store.WithWriteDatabase "" "t1"])))
            sample_now [store.WithListFrom "" "t2"])).
Proof.
  apply (rkv_List_is_not_scoped (sample_rkv []) sample_now sample_now
           (store.Record.mk "k" sample_value 0 0) [store.WithWriteDatabase "" "t1"]
           [store.WithListFrom "" "t2"]);
    [reflexivity | reflexivity | reflexivity | left; vm_compute; discriminate].
Defined.

(** X9: [configure], and so [Init] and [NewStore], never fail on the cache
    adapter, not even for an address that does not parse; [Init] leaves the
    options as given; only the first address is looked at; with Auth set the
    client gets the store's password, whatever the address carried. *)
Theorem rkv_configure_never_fails
  (ParseURL : string -> option redis.Options.t)
  (NewClient : redis.Options.t -> redis.Client) :
  (forall (r : rkv.t) (opts : list store.Option),
     snd (rkv.Init ParseURL NewClient r opts) = None /\
     rkv.options (fst (rkv.Init ParseURL NewClient r opts)) =
       store.apply opts (rkv.options r)) /\
  (forall (opts : list store.Option),
     exists s, rkv.NewStore ParseURL NewClient opts = Some s /\
               rkv.options s = store.apply opts store.Options.zero) /\
  (forall (o : store.Options.t) (a : string) (rest : list string),
     rkv.configure_client ParseURL NewClient (store.WithAddresses (a :: rest) o) =
     rkv.configure_client ParseURL NewClient (store.WithAddresses [a] o)) /\
  (forall (o : store.Options.t) (u : redis.Options.t),
     store.Options.Auth o = true ->
     ParseURL (hd "redis://127.0.0.1:6379" (store.Options.Addresses o)) = Some u ->
     fst (rkv.configure_client ParseURL NewClient o) =
     NewClient (redis.Options.mk (redis.Options.Addr u) (store.Options.Password o)
                  (redis.Options.DB u))).
Proof.
  split; [|split; [|split]].
  - intros r opts. split; reflexivity.
  - intros opts. eexists. split; reflexivity.
  - intros o a rest. reflexivity.
  - intros o u Hauth Hparse. unfold rkv.configure_client. rewrite Hauth.
    destruct (store.Options.Addresses o) as [|a rest]; simpl in *; now rewrite Hparse.
Qed.

Lemma rkv_configure_never_fails_witness :
  let parse := fun _ : string => Some (redis.Options.mk "127.0.0.1:6379" "fromurl" 0) in
  let dial := fun o : redis.Options.t =>
                redis.mkClient ∅ (if String.eqb (redis.Options.Password o) "secret"
                                  then None else Some "NOAUTH") in
  redis.broken
    (fst (rkv.configure_client parse dial (store.WithAuth true "secret" store.Options.zero)))
  = None.
Proof.
  intros parse dial.
  rewrite (proj2 (proj2 (proj2 (rkv_configure_never_fails parse dial)))
             (store.WithAuth true "secret" store.Options.zero)
             (redis.Options.mk "127.0.0.1:6379" "fromurl" 0) eq_refl eq_refl).
  reflexivity.
Defined.

(** ** The relational adapter *)

Lemma sorted_ID_inj (l : list storeRecord.t) (a b : storeRecord.t) :
  StronglySorted row_lt l -> In a l -> In b l ->
  storeRecord.ID a = storeRecord.ID b -> a = b.
Proof.
  induction 1 as [|x l Hs IH Hx]; simpl; [tauto|].
  rewrite List.Forall_forall in Hx. unfold row_lt in Hx.
  intros [->|Ha] [->|Hb] Hid; try reflexivity.
  - specialize (Hx b Hb). lia.
  - specialize (Hx a Ha). lia.
  - now apply IH.
Qed.

Lemma find_filter {A : Type} (f : A -> bool) (l : list A) :
  List.find f l = hd_error (List.filter f l).
Proof.
  induction l as [|x l IH]; simpl; [reflexivity|]. now destruct (f x).
Qed.

Lemma mysql_Read_exact (orm : mysql.ormStore) (t : gorm.Table_) (now : time.Time)
  (key : string) :
  store_table orm = Some t -> table_wf t ->
  mysql.Read orm now key [] =
  (map record_of_row
     (List.filter (live_row now)
        (List.filter (fun r => String.eqb (storeRecord.Key r) key) (gorm.rows t))),
   map storeRecord.Key
     (List.filter (mysql.expired now)
        (List.filter (fun r => String.eqb (storeRecord.Key r) key) (gorm.rows t))),
   None).
Proof.
  intros Ht Hwf.
  now rewrite (mysql_Read_spec orm now key [] t Ht (proj1 (proj2 Hwf))).
Qed.

Lemma remove_first_filter (k : string) (l : list storeRecord.t) :
  List.NoDup (map storeRecord.Key l) ->
  gorm.remove_first k l =
  List.filter (fun r => negb (String.eqb (storeRecord.Key r) k)) l.
Proof.
  induction l as [|y l IH]; simpl; [reflexivity|].
  intros Hnd. inversion Hnd as [|? ? Hy Hl]; subst.
  destruct (String.eqb (storeRecord.Key y) k) eqn:E; simpl.
  - apply String.eqb_eq in E. subst k. symmetry. apply filter_all.
    apply List.Forall_forall. intros z Hz. apply negb_true_iff, String.eqb_neq.
    intros Heq. apply Hy. rewrite <- Heq. now apply in_map.
  - now rewrite IH.
Qed.

Lemma filter_filter {A : Type} (f g : A -> bool) (l : list A) :
  List.filter f (List.filter g l) = List.filter (fun x => g x && f x) l.
Proof.
  induction l as [|x l IH]; simpl; [reflexivity|].
  destruct (g x); simpl; [destruct (f x)|]; now rewrite IH.
Qed.

Lemma filter_none {A : Type} (f : A -> bool) (l : list A) :
  (forall x, In x l -> f x = false) -> List.filter f l = [].
Proof.
  induction l as [|x l IH]; simpl; intros H; [reflexivity|].
  rewrite (H x (or_introl eq_refl)). apply IH. intros y Hy. apply H. now right.
Qed.

Lemma filter_wf (f : storeRecord.t -> bool) (t : gorm.Table_) :
  table_wf t -> table_wf (gorm.mkTable (List.filter f (gorm.rows t)) (gorm.autoIncrement t)).
Proof.
  intros (Hnd & Hs & Hids & Hauto). unfold table_wf. simpl.
  split; [now apply NoDup_map_filter|]. split; [now apply filter_sorted|].
  split; [|exact Hauto].
  rewrite List.Forall_forall in *. intros x Hx. apply Hids.
  now apply filter_In in Hx.
Qed.

Lemma mysql_Delete_result (orm : mysql.ormStore) (t : gorm.Table_) (key : string)
  (opts : list store.DeleteOption) :
  store_table orm = Some t ->
  mysql.Delete orm key opts =
  (with_table orm (gorm.mkTable (gorm.remove_first key (gorm.rows t)) (gorm.autoIncrement t)),
   None).
Proof.
  unfold store_table, mysql.Delete, gorm.DeleteKey, with_table. intros Ht.
  destruct (mysql.db orm) as [conn|]; [|discriminate].
  destruct (gorm.broken conn); [discriminate|]. now rewrite Ht.
Qed.

(** X12: [Delete] on a working connection never fails, whether or not the key
    is stored; it takes at most one row from the table and changes none,
    the table stays well formed, and afterwards an exact-match [Read] of
    the key returns an empty result and no error. *)
Theorem mysql_Delete_removes_the_row
  (orm : mysql.ormStore) (t : gorm.Table_) (now : time.Time) (key : string)
  (opts : list store.DeleteOption) :
  store_table orm = Some t -> table_wf t ->
  let orm' := fst (mysql.Delete orm key opts) in
  snd (mysql.Delete orm key opts) = None /\
  (exists t', store_table orm' = Some t' /\ table_wf t') /\
  (forall row, In row (stored_rows orm') -> In row (gorm.rows t)) /\
  (length (gorm.rows t) <= S (length (stored_rows orm')))%nat /\
  mysql.Read orm' now key [] = ([], [], None).
Proof.
  intros Ht Hwf orm'. subst orm'. rewrite (mysql_Delete_result orm t key opts Ht).
  cbn [fst snd].
  set (t' := gorm.mkTable _ _).
  assert (Hwf' : table_wf t') by now apply remove_first_wf.
  assert (Hrows : gorm.rows t' =
                  List.filter (fun r => negb (String.eqb (storeRecord.Key r) key))
                    (gorm.rows t)).
  { apply remove_first_filter, Hwf. }
  split; [reflexivity|]. split; [exists t'; split; [apply store_table_with_table|exact Hwf']|].
  unfold stored_rows. rewrite store_table_with_table.
  split; [|split].
  - intros row Hrow. now apply in_remove_first in Hrow.
  - subst t'. cbn [gorm.rows]. clear. induction (gorm.rows t) as [|y l IH]; simpl; [lia|].
    destruct (String.eqb (storeRecord.Key y) key); simpl; lia.
  - rewrite (mysql_Read_exact _ t' now key (store_table_with_table orm t') Hwf').
    assert (Hempty : List.filter (fun r => String.eqb (storeRecord.Key r) key)
                       (gorm.rows t') = []).
    { rewrite Hrows, filter_filter. apply filter_none.
      intros x _. now destruct (String.eqb (storeRecord.Key x) key). }
    now rewrite !Hempty.
Qed.

Lemma mysql_Delete_removes_the_row_witness :
  let rows := [storeRecord.mk 1 "a" sample_value 0; storeRecord.mk 2 "b" sample_value 0] in
  let orm := sample_orm rows 3 in
  snd (mysql.Delete orm "a" []) = None /\
  mysql.Read (fst (mysql.Delete orm "a" [])) sample_now "a" [] = ([], [], None).
Proof.
  intros rows orm.
  assert (Hwf : table_wf (gorm.mkTable rows 3)) by solve_table_wf.
  destruct (mysql_Delete_removes_the_row orm (gorm.mkTable rows 3) sample_now "a" []
              eq_refl Hwf) as (H0 & _ & _ & _ & H1).
  split; [exact H0|exact H1].
Defined.

Lemma update_table_idem (t : gorm.Table_) (k : string) (v : bytes) (e : Z) :
  table_wf t -> In k (map storeRecord.Key (gorm.rows t)) ->
  update_table (update_table t k v e) k v e = update_table t k v e.
Proof.
  intros Hwf Hin. destruct (update_table_wf t k v e Hwf) as (Hwf' & _ & Hfil).
  destruct (Hfil Hin) as [id Hrow]. clear Hfil.
  set (t' := update_table t k v e) in *.
  unfold update_table at 1. rewrite find_filter, Hrow. simpl hd_error. cbv iota.
  cbn [storeRecord.ID].
  assert (Hin' : In (storeRecord.mk id k v e) (gorm.rows t')).
  { assert (H : In (storeRecord.mk id k v e)
                  (List.filter (fun r => String.eqb (storeRecord.Key r) k) (gorm.rows t')))
      by (rewrite Hrow; now left).
    now apply filter_In in H. }
  rewrite (map_ext_in _ (fun y => y)).
  - rewrite map_id. now destruct t'.
  - intros y Hy. destruct (storeRecord.ID y =? id) eqn:E; [|reflexivity].
    apply Z.eqb_eq in E.
    assert (y = storeRecord.mk id k v e).
    { apply (sorted_ID_inj (gorm.rows t')); [apply Hwf' | exact Hy | exact Hin' | exact E]. }
    now subst y.
Qed.

(** X13: Over a key that is stored, writing the same record again, with the
    same resolved expiry, changes nothing: the store after the second
    [Write] is the store after the first. *)
Theorem mysql_Write_is_idempotent
  (orm : mysql.ormStore) (t : gorm.Table_) (now0 now1 : time.Time)
  (r : store.Record.t) (opts : list store.WriteOption) :
  store_table orm = Some t -> table_wf t ->
  In (store.Record.Key r) (map storeRecord.Key (gorm.rows t)) ->
  mysql.write_expiry now1 r (store.apply opts store.WriteOptions.zero) =
    mysql.write_expiry now0 r (store.apply opts store.WriteOptions.zero) ->
  mysql.Write (fst (mysql.Write orm now0 r opts)) now1 r opts = mysql.Write orm now0 r opts.
Proof.
  intros Ht Hwf Hin He. rewrite (mysql_Write_result orm t now0 r opts Ht Hwf Hin). cbn [fst].
  set (t' := update_table t _ _ _).
  destruct (update_table_wf t (store.Record.Key r) (store.Record.Value r)
              (mysql.write_expiry now0 r (store.apply opts store.WriteOptions.zero)) Hwf)
    as (Hwf' & Hkeys & _). fold t' in Hwf', Hkeys.
  assert (Hin' : In (store.Record.Key r) (map storeRecord.Key (gorm.rows t')))
    by now rewrite Hkeys.
  rewrite (mysql_Write_result _ t' now1 r opts (store_table_with_table orm t') Hwf' Hin').
  rewrite with_table_twice, He. subst t'. now rewrite update_table_idem.
Qed.

Lemma mysql_Write_is_idempotent_witness :
  let rec := store.Record.mk "a" (list_byte_of_string "w") (5 * time.Second) 0 in
  let orm := sample_orm [storeRecord.mk 1 "a" sample_value 0] 2 in
  mysql.Write (fst (mysql.Write orm sample_now rec [])) sample_now rec [] =
  mysql.Write orm sample_now rec [].
Proof.
  intros rec orm.
  assert (Hwf : table_wf (gorm.mkTable [storeRecord.mk 1 "a" sample_value 0] 2))
    by solve_table_wf.
  apply (mysql_Write_is_idempotent orm _ sample_now sample_now rec [] eq_refl Hwf).
  - now left.
  - reflexivity.
Defined.

(** X15: [Read] depends on its options only through Prefix, Suffix and Limit: the
    Offset is never handed to the query, so it has no effect on the result. *)
Theorem mysql_Read_ignores_the_Offset
  (orm : mysql.ormStore) (now : time.Time) (key : string)
  (opts1 opts2 : list store.ReadOption) :
  let a := store.apply opts1 store.ReadOptions.zero in
  let b := store.apply opts2 store.ReadOptions.zero in
  store.ReadOptions.Prefix a = store.ReadOptions.Prefix b ->
  store.ReadOptions.Suffix a = store.ReadOptions.Suffix b ->
  store.ReadOptions.Limit a = store.ReadOptions.Limit b ->
  mysql.Read orm now key opts1 = mysql.Read orm now key opts2.
Proof.
  intros a b Hp Hs Hl. unfold mysql.Read. fold a. fold b.
  assert (Hsess : mysql.read_session orm key a = mysql.read_session orm key b).
  { unfold mysql.read_session. rewrite Hp, Hs, Hl.
    destruct (store.ReadOptions.Prefix b), (store.ReadOptions.Suffix b),
      (store.ReadOptions.Limit b =? 0)%N,
      (store.ReadOptions.Offset a =? 0)%N, (store.ReadOptions.Offset b =? 0)%N;
      reflexivity. }
  now rewrite Hsess.
Qed.

Lemma mysql_Read_ignores_the_Offset_witness :
  let rows := [storeRecord.mk 1 "a1" sample_value 0; storeRecord.mk 2 "a2" sample_value 0;
               storeRecord.mk 3 "a3" sample_value 0] in
  mysql.Read (sample_orm rows 4) sample_now "a"
    [store.WithReadPrefix; store.WithReadLimit 1 [2%N]] =
  mysql.Read (sample_orm rows 4) sample_now "a"
    [store.WithReadPrefix; store.WithReadLimit 1 []].
Proof.
  intros rows.
  apply (mysql_Read_ignores_the_Offset (sample_orm rows 4) sample_now "a"
           [store.WithReadPrefix; store.WithReadLimit 1 [2%N]]
           [store.WithReadPrefix; store.WithReadLimit 1 []]); reflexivity.
Defined.

Lemma run_spawned_table (keys : list string) (orm : mysql.ormStore) (t : gorm.Table_) :
  store_table orm = Some t ->
  store_table (run_spawned orm keys) =
  Some (gorm.mkTable (fold_left (fun l k => gorm.remove_first k l) keys (gorm.rows t))
          (gorm.autoIncrement t)).
Proof.
  revert orm t. induction keys as [|k keys IH]; intros orm t Ht.
  - simpl. rewrite Ht. now destruct t.
  - unfold run_spawned in *. cbn [fold_left].
    rewrite (mysql_Delete_result orm t k [] Ht). cbn [fst].
    now rewrite (IH _ _ (store_table_with_table orm _)).
Qed.

Lemma fold_remove_first (keys : list string) (l : list storeRecord.t) :
  List.NoDup (map storeRecord.Key l) ->
  fold_left (fun l k => gorm.remove_first k l) keys l =
  List.filter (fun r => negb (existsb (String.eqb (storeRecord.Key r)) keys)) l.
Proof.
  revert l. induction keys as [|k keys IH]; intros l Hnd.
  - simpl. symmetry. apply filter_all. now apply List.Forall_forall.
  - cbn [fold_left]. rewrite (remove_first_filter k l Hnd).
    rewrite IH by now apply NoDup_map_filter.
    rewrite filter_filter. apply filter_ext. intros r. simpl.
    now rewrite negb_orb.
Qed.

(** X17: The deletions a [List] without Limit starts are the deletions of the
    expired rows of the table: once they have run, the table holds exactly
    the rows that were live, and the same [List] returns the same keys and
    starts no further deletion. *)
Theorem mysql_lazy_deletion_purges_expired_rows
  (orm : mysql.ormStore) (t : gorm.Table_) (now : time.Time)
  (opts : list store.ListOption) :
  store_table orm = Some t -> table_wf t ->
  store.ListOptions.Limit (store.apply opts store.ListOptions.zero) = 0%N ->
  let keys := fst (fst (mysql.List orm now opts)) in
  let spawned := snd (fst (mysql.List orm now opts)) in
  let orm' := run_spawned orm spawned in
  spawned = map storeRecord.Key (List.filter (mysql.expired now) (gorm.rows t)) /\
  stored_rows orm' = List.filter (live_row now) (gorm.rows t) /\
  mysql.List orm' now opts = (keys, [], None).
Proof.
  intros Ht Hwf Hlim keys spawned orm'. subst keys spawned orm'.
  rewrite (mysql_List_spec orm now opts t Ht Hwf). cbv zeta. rewrite Hlim.
  cbn [N.eqb fst snd].
  set (dead := map storeRecord.Key (List.filter (mysql.expired now) (gorm.rows t))).
  assert (Hfold : fold_left (fun l k => gorm.remove_first k l) dead (gorm.rows t) =
                  List.filter (live_row now) (gorm.rows t)).
  { rewrite fold_remove_first by apply Hwf. apply filter_ext_in. intros r Hr.
    unfold live_row. f_equal.
    destruct (mysql.expired now r) eqn:E.
    - apply existsb_exists. exists (storeRecord.Key r). split; [|apply String.eqb_refl].
      subst dead. apply in_map, filter_In. now split.
    - apply not_true_is_false. intros H. apply existsb_exists in H as (k & Hk & Heq).
      apply String.eqb_eq in Heq. subst dead.
      apply in_map_iff in Hk as (r' & Hk' & Hr'). apply filter_In in Hr' as [Hr' E'].
      assert (r' = r).
      { apply (NoDup_map_inj storeRecord.Key (gorm.rows t)); [apply Hwf|exact Hr'|exact Hr|].
        congruence. }
      subst r'. congruence. }
  pose proof (run_spawned_table dead orm t Ht) as Ht'. rewrite Hfold in Ht'.
  split; [reflexivity|]. split.
  - unfold stored_rows. now rewrite Ht'.
  - rewrite (mysql_List_spec _ now opts _ Ht' (filter_wf (live_row now) t Hwf)).
    cbv zeta. rewrite Hlim. cbn [N.eqb gorm.rows].
    rewrite !filter_filter.
    rewrite (filter_ext (fun x => live_row now x && live_row now x) (live_row now))
      by (intros x; now destruct (live_row now x)).
    rewrite (filter_none (fun x => live_row now x && mysql.expired now x)); [reflexivity|].
    intros x _. unfold live_row. now destruct (mysql.expired now x).
Qed.

Lemma mysql_lazy_deletion_purges_expired_rows_witness :
  let rows := [storeRecord.mk 1 "old" sample_value 1; storeRecord.mk 2 "new" sample_value 0] in
  let orm := sample_orm rows 3 in
  snd (fst (mysql.List orm sample_now [])) = ["old"] /\
  stored_rows (run_spawned orm (snd (fst (mysql.List orm sample_now [])))) =
    [storeRecord.mk 2 "new" sample_value 0].
Proof.
  intros rows orm.
  assert (Hwf : table_wf (gorm.mkTable rows 3)) by solve_table_wf.
  destruct (mysql_lazy_deletion_purges_expired_rows orm (gorm.mkTable rows 3) sample_now []
              eq_refl Hwf eq_refl) as (H1 & H2 & _).
  split.
  - rewrite H1. reflexivity.
  - rewrite H2. reflexivity.
Defined.

Lemma Unix_Time_Unix_bounds (E : time.Time) :
  E - time.Second < time.Unix (time.Time_Unix E) 0 <= E.
Proof.
  unfold time.Unix, time.Time_Unix.
  change time.Second with 1000000000.
  pose proof (Z.div_mod E 1000000000 ltac:(lia)) as Hdm.
  pose proof (Z.mod_pos_bound E 1000000000 ltac:(lia)) as Hb.
  lia.
Qed.

(** X18: The relational adapter keeps an expiry in whole seconds: a record
    written with its own Expiry E is stored with E cut down to the second,
    less than a second before E and never after it; written over a key
    that is stored, from the first instant after that second on [Read] no
    longer returns it and starts its deletion, also when E itself is not
    yet reached. *)
Theorem mysql_expiry_is_cut_to_the_second
  (orm : mysql.ormStore) (t : gorm.Table_) (now0 : time.Time)
  (r : store.Record.t) (opts : list store.WriteOption) :
  store_table orm = Some t -> table_wf t ->
  In (store.Record.Key r) (map storeRecord.Key (gorm.rows t)) ->
  time.IsZero (store.Record.Expiry r) = false ->
  let e := time.Time_Unix (store.Record.Expiry r) in
  let orm' := fst (mysql.Write orm now0 r opts) in
  mysql.write_expiry now0 r (store.apply opts store.WriteOptions.zero) = e /\
  store.Record.Expiry r - time.Second < time.Unix e 0 <= store.Record.Expiry r /\
  (forall now1, e <> 0 -> time.Unix e 0 < now1 ->
     mysql.Read orm' now1 (store.Record.Key r) [] = ([], [store.Record.Key r], None)).
Proof.
  intros Ht Hwf Hin Hz e orm'.
  assert (He : mysql.write_expiry now0 r (store.apply opts store.WriteOptions.zero) = e).
  { unfold mysql.write_expiry. now rewrite Hz. }
  split; [exact He|]. split; [apply Unix_Time_Unix_bounds|].
  intros now1 Hne Hlt. subst orm'.
  rewrite (mysql_Write_result orm t now0 r opts Ht Hwf Hin). cbn [fst]. rewrite He.
  set (t' := update_table t _ _ _).
  destruct (update_table_wf t (store.Record.Key r) (store.Record.Value r) e Hwf)
    as (Hwf' & _ & Hfil). destruct (Hfil Hin) as [id Hrow]. fold t' in Hwf', Hrow.
  rewrite (mysql_Read_exact _ t' now1 _ (store_table_with_table orm t') Hwf').
  rewrite !Hrow.
  assert (Hd : mysql.expired now1
                 (storeRecord.mk id (store.Record.Key r) (store.Record.Value r) e) = true).
  { unfold mysql.expired, time.Before. simpl.
    apply Z.eqb_neq in Hne. apply Z.ltb_lt in Hlt. now rewrite Hne, Hlt. }
  cbn [List.filter]. unfold live_row. now rewrite Hd.
Qed.

Lemma mysql_expiry_is_cut_to_the_second_witness :
  let E := time.Add sample_now (1500 * time.Millisecond) in
  let rec := store.Record.mk "k" (list_byte_of_string "w") 0 E in
  let now1 := time.Add sample_now (1200 * time.Millisecond) in
  let orm := sample_orm [storeRecord.mk 1 "k" sample_value 0] 2 in
  now1 < E /\
  mysql.Read (fst (mysql.Write orm sample_now rec [])) now1 "k" [] = ([], ["k"], None).
Proof.
  intros E rec now1 orm. split; [reflexivity|].
  assert (Hwf : table_wf (gorm.mkTable [storeRecord.mk 1 "k" sample_value 0] 2))
    by solve_table_wf.
  destruct (mysql_expiry_is_cut_to_the_second orm
              (gorm.mkTable [storeRecord.mk 1 "k" sample_value 0] 2)
              sample_now rec [] eq_refl Hwf) as (_ & _ & H).
  - now left.
  - reflexivity.
  - apply (H now1); [discriminate | reflexivity].
Defined.

(** X19: On a broken connection [Write] and [List] return the engine's error
    wrapped in their own message and [Delete] returns it as it is; the
    store is left as it was.  ([Read] alone turns it into NotFound.) *)
Theorem mysql_broken_connection
  (orm : mysql.ormStore) (conn : gorm.Conn) (m : string) (now : time.Time)
  (r : store.Record.t) (key : string) (wopts : list store.WriteOption)
  (dopts : list store.DeleteOption) (lopts : list store.ListOption) :
  mysql.db orm = Some conn -> gorm.broken conn = Some m ->
  mysql.Write orm now r wopts =
    (orm, Some (fmt_Errorf "Couldn't insert record" (engine_error m))) /\
  mysql.Delete orm key dopts = (orm, Some (engine_error m)) /\
  mysql.List orm now lopts =
    ([], [], Some (fmt_Errorf "Couldn't find keys" (engine_error m))).
Proof.
  intros Hdb Hb.
  unfold mysql.Write, mysql.set, mysql.Delete, mysql.List, gorm.SelectID,
    gorm.DeleteKey, gorm.Select.
  rewrite Hdb, Hb. now repeat split.
Qed.

Lemma mysql_broken_connection_witness :
  let orm := mysql.mk store.Options.zero (Some (gorm.mkConn ∅ (Some "EOF"))) "store" "store" in
  mysql.Write orm sample_now (store.Record.mk "k" sample_value 0 0) [] =
    (orm, Some (fmt_Errorf "Couldn't insert record" (engine_error "EOF"))) /\
  mysql.Delete orm "k" [] = (orm, Some (engine_error "EOF")) /\
  mysql.List orm sample_now [] =
    ([], [], Some (fmt_Errorf "Couldn't find keys" (engine_error "EOF"))).
Proof.
  intros orm.
  apply (mysql_broken_connection orm (gorm.mkConn ∅ (Some "EOF")) "EOF" sample_now
           (store.Record.mk "k" sample_value 0 0) "k" [] [] []); reflexivity.
Defined.



(** X22: With a Limit, [Read] and [List] never return more than Limit results. *)
Theorem mysql_results_are_bounded_by_the_Limit
  (orm : mysql.ormStore) (t : gorm.Table_) (now : time.Time) (key : string)
  (ropts : list store.ReadOption) (lopts : list store.ListOption) :
  store_table orm = Some t -> table_wf t ->
  (store.ReadOptions.Limit (store.apply ropts store.ReadOptions.zero) <> 0%N ->
   (length (fst (fst (mysql.Read orm now key ropts))) <=
    N.to_nat (store.ReadOptions.Limit (store.apply ropts store.ReadOptions.zero)))%nat) /\
  (store.ListOptions.Limit (store.apply lopts store.ListOptions.zero) <> 0%N ->
   (length (fst (fst (mysql.List orm now lopts))) <=
    N.to_nat (store.ListOptions.Limit (store.apply lopts store.ListOptions.zero)))%nat).
Proof.
  intros Ht Hwf. split; intros Hlim; apply N.eqb_neq in Hlim.
  - rewrite (mysql_Read_spec orm now key ropts t Ht (proj1 (proj2 Hwf))).
    cbv zeta. rewrite Hlim. cbn [fst]. rewrite length_map.
    etransitivity; [apply List.filter_length_le|]. apply firstn_le_length.
  - rewrite (mysql_List_spec orm now lopts t Ht Hwf).
    cbv zeta. rewrite Hlim. cbn [fst]. rewrite length_map.
    etransitivity; [apply List.filter_length_le|]. apply firstn_le_length.
Qed.

Lemma mysql_results_are_bounded_by_the_Limit_witness :
  let rows := [storeRecord.mk 1 "a1" sample_value 0; storeRecord.mk 2 "a2" sample_value 0;
               storeRecord.mk 3 "a3" sample_value 0] in
  (length (fst (fst (mysql.Read (sample_orm rows 4) sample_now "a"
                       [store.WithReadPrefix; store.WithReadLimit 2 []]))) <= 2)%nat /\
  (length (fst (fst (mysql.List (sample_orm rows 4) sample_now
                       [store.WithListLimit 2]))) <= 2)%nat.
Proof.
  intros rows.
  assert (Hwf : table_wf (gorm.mkTable rows 4)) by solve_table_wf.
  destruct (mysql_results_are_bounded_by_the_Limit (sample_orm rows 4)
              (gorm.mkTable rows 4) sample_now "a"
              [store.WithReadPrefix; store.WithReadLimit 2 []] [store.WithListLimit 2]
              eq_refl Hwf) as [HR HL].
  split; [apply HR; discriminate | apply HL; discriminate].
Defined.

Lemma Time_Unix_Unix (sec : Z) : time.Time_Unix (time.Unix sec 0) = sec.
Proof.
  unfold time.Time_Unix, time.Unix. change time.Second with 1000000000.
  rewrite Z.add_0_r, Z.div_mul by lia. lia.
Qed.

(** X23: Writing back a record as [Read] returned it changes nothing: the row
    keeps its id, value and expiry and the table its rows (for an expiry
    other than the second of the zero Time, which no [Write] produces from
    a later date). *)
Theorem mysql_Write_back_is_a_no_op
  (orm : mysql.ormStore) (t : gorm.Table_) (now : time.Time) (row : storeRecord.t) :
  store_table orm = Some t -> table_wf t ->
  In row (gorm.rows t) ->
  storeRecord.Expiry row <> - time.unixToInternal ->
  snd (mysql.Write orm now (record_of_row row) []) = None /\
  stored_rows (fst (mysql.Write orm now (record_of_row row) [])) = gorm.rows t.
Proof.
  intros Ht Hwf Hrow Hne.
  assert (Hin : In (store.Record.Key (record_of_row row))
                  (map storeRecord.Key (gorm.rows t)))
    by (cbn [record_of_row store.Record.Key]; now apply in_map).
  rewrite (mysql_Write_result orm t now (record_of_row row) [] Ht Hwf Hin).
  cbn [fst snd]. split; [reflexivity|].
  unfold stored_rows. rewrite store_table_with_table.
  set (e := mysql.write_expiry _ _ _).
  assert (He : e = storeRecord.Expiry row).
  { subst e. unfold mysql.write_expiry, record_of_row. cbn [store.Record.Expiry].
    replace (time.IsZero (time.Unix (storeRecord.Expiry row) 0)) with false.
    - simpl. apply Time_Unix_Unix.
    - symmetry. unfold time.IsZero, time.Unix. apply Z.eqb_neq.
      change time.Second with 1000000000. lia. }
  rewrite He. unfold record_of_row. cbn [store.Record.Key store.Record.Value].
  destruct Hwf as (Hnd & Hs & Hids & Hauto).
  unfold update_table.
  assert (Hfil : List.filter (fun x => String.eqb (storeRecord.Key x) (storeRecord.Key row))
                   (gorm.rows t) = [row]).
  { rewrite <- (map_id (gorm.rows t)) at 1.
    now rewrite (filter_key_unique (fun y => y) _ _ row (fun y => eq_refl) Hnd Hrow eq_refl). }
  rewrite find_filter, Hfil. cbn [hd_error gorm.rows].
  rewrite (map_ext_in _ (fun y => y)); [apply map_id|].
  intros y Hy. destruct (storeRecord.ID y =? storeRecord.ID row) eqn:E; [|reflexivity].
  apply Z.eqb_eq in E.
  assert (y = row) by (apply (sorted_ID_inj (gorm.rows t)); assumption).
  subst y. now destruct row.
Qed.

Lemma mysql_Write_back_is_a_no_op_witness :
  let rows := [storeRecord.mk 1 "a" sample_value 0;
               storeRecord.mk 2 "b" sample_value 1800000000] in
  stored_rows (fst (mysql.Write (sample_orm rows 3) sample_now
                      (record_of_row (storeRecord.mk 2 "b" sample_value 1800000000)) [])) =
  rows.
Proof.
  intros rows.
  assert (Hwf : table_wf (gorm.mkTable rows 3)) by solve_table_wf.
  apply (mysql_Write_back_is_a_no_op (sample_orm rows 3) (gorm.mkTable rows 3) sample_now
           (storeRecord.mk 2 "b" sample_value 1800000000) eq_refl Hwf).
  - right. now left.
  - discriminate.
Defined.

(** X10: The last [Write] to a storage key wins on the cache adapter, expiry
    included: after two writes to the same table and key the store is what
    the second write alone would have left, so a TTL given by the first
    write does not survive a second write without one. *)
Theorem rkv_last_Write_wins
  (r : rkv.t) (now0 now1 : time.Time) (rec1 rec2 : store.Record.t)
  (opts1 opts2 : list store.WriteOption) :
  store.WriteOptions.Table (rkv.write_options r opts1) +:+ store.Record.Key rec1 =
  store.WriteOptions.Table (rkv.write_options r opts2) +:+ store.Record.Key rec2 ->
  fst (fst (rkv.Write (fst (fst (rkv.Write r now0 rec1 opts1))) now1 rec2 opts2)) =
  fst (fst (rkv.Write r now1 rec2 opts2)).
Proof.
  intros Hkey.
  destruct (write_record_key_value now0 rec1 opts1 (rkv.write_options r opts1)) as [HK1 _].
  destruct (write_record_key_value now1 rec2 opts2 (rkv.write_options r opts2)) as [HK2 _].
  unfold rkv.Write at 2. unfold redis.Set_.
  destruct (redis.broken (rkv.client r)) eqn:Hb.
  - cbn [fst]. now rewrite rkv_eta.
  - cbn [fst]. unfold rkv.Write, redis.Set_. cbn [rkv.client rkv.options redis.broken
      redis.keyspace fst]. rewrite Hb. cbn [fst].
    change (rkv.write_options (rkv.mk (rkv.options r) _) opts2)
      with (rkv.write_options r opts2).
    rewrite HK1, HK2, Hkey. now rewrite insert_insert_eq.
Qed.

Lemma rkv_last_Write_wins_witness :
  let first := store.Record.mk "k" sample_value (5 * time.Second) 0 in
  let second := store.Record.mk "k" (list_byte_of_string "w") 0 0 in
  redis.keyspace
    (rkv.client (fst (fst (rkv.Write (fst (fst (rkv.Write (sample_rkv []) sample_now first [])))
                             sample_now second [])))) !! "k" =
  Some (redis.mkEntry (list_byte_of_string "w") None).
Proof.
  intros first second.
  rewrite (rkv_last_Write_wins (sample_rkv []) sample_now sample_now first second [] []
             eq_refl).
  reflexivity.
Defined.
